(** * LSB steganography core ([LSBSystem] of demo.py)

    A shallow embedding of the bit-level codec, the embedder, the extractor
    and the PSNR metric of [src/demo.py], followed by the properties stated
    for them.

    Conventions.
    - A Python [int] is a [Z]; a [numpy.uint8] sample is a [Z] in [0, 256).
    - A Python [str] is the list of its code points; [bytes] is a list of
      byte values.
    - The strings of ['0'] and ['1'] characters that the code builds with
      [bin], [zfill] and [join] are lists of booleans ([true] is ['1']).
    - A call that can raise returns a [result]; the exceptions are those the
      interpreter, numpy and the code itself raise on the modelled paths.
    - [np.array(Image.open(p).convert('RGB'))] is an [ndarray] of shape
      [(height, width, 3)], kept as its C-order flattening. *)

From Stdlib Require Import ZArith List Bool Lia.
Import ListNotations.
Open Scope Z_scope.

(* ===================================================================== *)
(** ** Python values and exceptions *)
(* ===================================================================== *)

Definition str := list Z.
Definition bytes := list Z.
Definition bitstr := list bool.

Inductive exception : Type :=
| UnicodeEncodeError                          (* str.encode on a lone surrogate *)
| ValueError_too_long (max_capacity needed : Z) (* demo.py line 46 *)
| ValueError_broadcast                        (* numpy: operands could not be broadcast *)
| ValueError_int_literal                      (* int('', 2) *)
| OverflowError.                              (* int.to_bytes: int too big to convert *)

Inductive result (A : Type) : Type :=
| Ok (a : A)
| Raise (e : exception).
Arguments Ok {A} a.
Arguments Raise {A} e.

Definition bind {A B : Type} (r : result A) (k : A -> result B) : result B :=
  match r with
  | Ok a => k a
  | Raise e => Raise e
  end.

Notation "x <- r ;; k" := (bind r (fun x => k))
  (at level 61, r at next level, right associativity).

(** [len(l)] as a Python int. *)
Definition len {A : Type} (l : list A) : Z := Z.of_nat (length l).

(** [l[a:b]] for [0 <= a]. *)
Definition slice {A : Type} (l : list A) (a b : Z) : list A :=
  firstn (Z.to_nat (b - a)) (skipn (Z.to_nat a) l).

(* ===================================================================== *)
(** ** UTF-8, as [str.encode('utf-8')] and [bytes.decode('utf-8', errors='ignore')] *)
(* ===================================================================== *)

Module Utf8.

Definition is_surrogate (c : Z) : bool := (0xD800 <=? c) && (c <=? 0xDFFF).

(** A code point that [str.encode('utf-8')] accepts. *)
Definition scalar (c : Z) : Prop :=
  0 <= c <= 0x10FFFF /\ is_surrogate c = false.

Definition tail6 (c : Z) : Z := Z.lor 0x80 (Z.land c 0x3F).

(** The bytes of one character.  A [str] holds code points from 0 to
    U+10FFFF only; a number outside that range is no character and is
    refused here like a surrogate. *)

Definition encode_char (c : Z) : result bytes :=
  if c <? 0 then Raise UnicodeEncodeError
  else if c <? 0x80 then Ok [c]
  else if c <? 0x800 then
    Ok [Z.lor 0xC0 (Z.shiftr c 6); tail6 c]
  else if c <? 0x10000 then
    if is_surrogate c then Raise UnicodeEncodeError
    else Ok [Z.lor 0xE0 (Z.shiftr c 12); tail6 (Z.shiftr c 6); tail6 c]
  else if c <? 0x110000 then
    Ok [Z.lor 0xF0 (Z.shiftr c 18); tail6 (Z.shiftr c 12);
        tail6 (Z.shiftr c 6); tail6 c]
  else Raise UnicodeEncodeError.

Fixpoint encode (text : str) : result bytes :=
  match text with
  | [] => Ok []
  | c :: rest =>
      b <- encode_char c ;;
      bs <- encode rest ;;
      Ok (b ++ bs)
  end.

Definition between (lo hi b : Z) : bool := (lo <=? b) && (b <=? hi).
Definition is_cont (b : Z) : bool := between 0x80 0xBF b.

(** Bounds of the second byte after the lead byte [b0] of a three- or
    four-byte sequence (no overlong forms, no surrogates, nothing above
    U+10FFFF). *)
Definition second_lo (b0 : Z) : Z :=
  if b0 =? 0xE0 then 0xA0 else if b0 =? 0xF0 then 0x90 else 0x80.
Definition second_hi (b0 : Z) : Z :=
  if b0 =? 0xED then 0x9F else if b0 =? 0xF4 then 0x8F else 0xBF.

Definition low6 (b : Z) : Z := Z.land b 0x3F.

Definition cp2 (b0 b1 : Z) : Z :=
  Z.lor (Z.shiftl (Z.land b0 0x1F) 6) (low6 b1).
Definition cp3 (b0 b1 b2 : Z) : Z :=
  Z.lor (Z.shiftl (Z.land b0 0x0F) 12) (Z.lor (Z.shiftl (low6 b1) 6) (low6 b2)).
Definition cp4 (b0 b1 b2 b3 : Z) : Z :=
  Z.lor (Z.shiftl (Z.land b0 0x07) 18)
        (Z.lor (Z.shiftl (low6 b1) 12) (Z.lor (Z.shiftl (low6 b2) 6) (low6 b3))).

(** Decoding with [errors='ignore']: an ill-formed byte run (an invalid
    start byte, a lead byte with the well-formed part of its continuation,
    or a sequence cut by the end of the data) is dropped and decoding
    resumes right after it. *)
Fixpoint decode_ignore (bs : bytes) : str :=
  match bs with
  | [] => []
  | b0 :: r0 =>
      if between 0 0x7F b0 then b0 :: decode_ignore r0
      else if between 0xC2 0xDF b0 then
        match r0 with
        | [] => []
        | b1 :: r1 =>
            if is_cont b1 then cp2 b0 b1 :: decode_ignore r1
            else decode_ignore r0
        end
      else if between 0xE0 0xEF b0 then
        match r0 with
        | [] => []
        | b1 :: r1 =>
            if between (second_lo b0) (second_hi b0) b1 then
              match r1 with
              | [] => []
              | b2 :: r2 =>
                  if is_cont b2 then cp3 b0 b1 b2 :: decode_ignore r2
                  else decode_ignore r1
              end
            else decode_ignore r0
        end
      else if between 0xF0 0xF4 b0 then
        match r0 with
        | [] => []
        | b1 :: r1 =>
            if between (second_lo b0) (second_hi b0) b1 then
              match r1 with
              | [] => []
              | b2 :: r2 =>
                  if is_cont b2 then
                    match r2 with
                    | [] => []
                    | b3 :: r3 =>
                        if is_cont b3 then cp4 b0 b1 b2 b3 :: decode_ignore r3
                        else decode_ignore r2
                    end
                  else decode_ignore r1
              end
            else decode_ignore r0
        end
      else decode_ignore r0
  end.

End Utf8.

(* ===================================================================== *)
(** ** Integer and bit-string primitives *)
(* ===================================================================== *)

(** [int.from_bytes(bs, 'big')]. *)
Definition int_from_bytes (bs : bytes) : Z :=
  fold_left (fun acc b => acc * 256 + b) bs 0.

Fixpoint bin_pos (p : positive) : bitstr :=
  match p with
  | xH => [true]
  | xO q => bin_pos q ++ [false]
  | xI q => bin_pos q ++ [true]
  end.

(** [bin(n)[2:]] for [n >= 0]: the binary numeral of [n] without leading
    zeros, ['0'] for zero.  Every call site passes a length or the value
    of [int.from_bytes], so the negative case is never reached. *)
Definition bin (n : Z) : bitstr :=
  match n with
  | Z0 => [false]
  | Zpos p => bin_pos p
  | Zneg _ => []
  end.

(** [s.zfill(w)] on a string of binary digits. *)
Definition zfill (w : Z) (s : bitstr) : bitstr :=
  repeat false (Z.to_nat (w - len s)) ++ s.

Definition bits_value (s : bitstr) : Z :=
  fold_left (fun acc b => 2 * acc + Z.b2z b) s 0.

(** [int(s, 2)] on a string of binary digits; the empty string is not a
    literal. *)
Definition int_base2 (s : bitstr) : result Z :=
  match s with
  | [] => Raise ValueError_int_literal
  | _ => Ok (bits_value s)
  end.

(** [n.bit_length()]. *)
Definition bit_length (n : Z) : Z :=
  if n =? 0 then 0 else Z.log2 (Z.abs n) + 1.

Fixpoint be_bytes (k : nat) (n : Z) : bytes :=
  match k with
  | O => []
  | S k' => be_bytes k' (n / 256) ++ [n mod 256]
  end.

(** [n.to_bytes(length, 'big')]. *)
Definition to_bytes (n length : Z) : result bytes :=
  if (n <? 0) || (256 ^ length <=? n) then Raise OverflowError
  else Ok (be_bytes (Z.to_nat length) n).

(* ===================================================================== *)
(** ** LSBSystem *)
(* ===================================================================== *)

Definition header_len : Z := 32.

(** [text_to_bits] (demo.py lines 15-18). *)
Definition text_to_bits (text : str) : result bitstr :=
  raw <- Utf8.encode text ;;
  let bits := bin (int_from_bytes raw) in
  Ok (zfill (8 * ((len bits + 7) / 8)) bits).

(** The string returned by the handler of [bits_to_text] (line 26). *)
Definition DECODE_ERROR : str :=
  [0x5B; 0x89E3; 0x7801; 0x9519; 0x8BEF; 0x5D].

(** The body of the [try] of [bits_to_text] (lines 23-24). *)
Definition bits_to_text_try (bits : bitstr) : result str :=
  n <- int_base2 bits ;;
  raw <- to_bytes n ((bit_length n + 7) / 8) ;;
  Ok (Utf8.decode_ignore raw).

(** [bits_to_text] (lines 20-26): the bare [except] turns every exception
    of the body into the fixed string. *)
Definition bits_to_text (bits : bitstr) : str :=
  match bits_to_text_try bits with
  | Ok s => s
  | Raise _ => DECODE_ERROR
  end.

(** An RGB image as the array the code works on. *)
Record ndarray : Type := mk_ndarray {
  height : Z;
  width : Z;
  flat : list Z      (* array.reshape(-1) *)
}.

(** Pillow's default [Image.MAX_IMAGE_PIXELS]; [Image.open] raises
    [DecompressionBombError] for a picture of more than twice that many
    pixels, and the code leaves the default in place. *)
Definition MAX_IMAGE_PIXELS : Z := 89478485.

(** What [np.array(Image.open(p).convert('RGB'))] can be. *)
Record rgb_array (a : ndarray) : Prop := mk_rgb_array {
  height_pos : 0 < height a;
  width_pos : 0 < width a;
  pixels_bound : width a * height a <= 2 * MAX_IMAGE_PIXELS;
  flat_shape : len (flat a) = height a * width a * 3;
  flat_uint8 : Forall (fun x => 0 <= x < 256) (flat a)
}.

(** [flat_array[:k] = (flat_array[:k] & 254) | bit_list] with
    [k = len(bit_list)] (line 56).  The slice has [min k (len flat_array)]
    entries; numpy combines it with [bit_list] only when the two lengths
    agree or one operand has a single entry, and then stores a result of
    the slice's own length only. *)
Definition lsb_assign (flat_array : list Z) (bit_list : list Z) : result (list Z) :=
  let k := length bit_list in
  let head := firstn k flat_array in
  if (length head =? k)%nat then
    Ok (map (fun xb => Z.lor (Z.land (fst xb) 254) (snd xb)) (combine head bit_list)
        ++ skipn k flat_array)
  else if ((k =? 1) && (length head =? 0))%nat then Ok flat_array
  else Raise ValueError_broadcast.

(** [encode] from the loaded array up to the reshape of line 59, that is
    without [Image.fromarray], the path rule and [new_img.save] of lines
    60-65 (for those see [encode_to_file]).  The first component is the
    content of the buffer [flat_array] when this part ends, the second
    what it produced: the array [new_array] handed on to be saved, or the
    exception raised before anything is saved. *)
Definition encode (img : ndarray) (secret_text : str) : list Z * result ndarray :=
  let flat_array := flat img in
  match text_to_bits secret_text with
  | Raise e => (flat_array, Raise e)
  | Ok text_bits =>
      let length_bits := zfill header_len (bin (len text_bits)) in
      let full_bits := length_bits ++ text_bits in
      let total_pixels := width img * height img in
      let max_capacity := total_pixels * 3 in
      if len full_bits >? max_capacity then
        (flat_array, Raise (ValueError_too_long max_capacity (len full_bits)))
      else
        let bit_list := map Z.b2z full_bits in
        match lsb_assign flat_array bit_list with
        | Raise e => (flat_array, Raise e)
        | Ok flat_array' =>
            (flat_array', Ok (mk_ndarray (height img) (width img) flat_array'))
        end
  end.

(** The array a call of [encode] hands on to be saved. *)
Definition embed (img : ndarray) (secret_text : str) : result ndarray :=
  snd (encode img secret_text).

(** The string returned at line 83. *)
Definition NO_MARKER : str :=
  [0x9519; 0x8BEF; 0xFF1A; 0x672A; 0x80FD; 0x68C0; 0x6D4B; 0x5230;
   0x6709; 0x6548; 0x7684; 0x9690; 0x5199; 0x6807; 0x8BB0].

(** Which [return] of [decode] is taken. *)
Inductive decode_return : Type :=
| Return_no_marker                 (* line 83 *)
| Return_text (bits : bitstr).     (* line 88, [bits] is [msg_bits_str] *)

(** ["".join(map(str, xs))] on an array of zeros and ones. *)
Definition join_bits (xs : list Z) : bitstr := map (fun x => negb (x =? 0)) xs.

(** The header value read at lines 74-79. *)
Definition read_header (img : ndarray) : result Z :=
  let lsb_bits := map (fun x => Z.land x 1) (flat img) in
  int_base2 (join_bits (firstn (Z.to_nat header_len) lsb_bits)).

(** [decode] (lines 67-88) from the loaded array on, up to the choice of
    the [return]. *)
Definition decode_branch (img : ndarray) : result decode_return :=
  let flat_array := flat img in
  let lsb_bits := map (fun x => Z.land x 1) flat_array in
  let length_bits_list := firstn (Z.to_nat header_len) lsb_bits in
  msg_len <- int_base2 (join_bits length_bits_list) ;;
  if msg_len >? len lsb_bits - header_len then Ok Return_no_marker
  else
    let msg_bits_list := slice lsb_bits header_len (header_len + msg_len) in
    Ok (Return_text (join_bits msg_bits_list)).

Definition decode (img : ndarray) : result str :=
  r <- decode_branch img ;;
  match r with
  | Return_no_marker => Ok NO_MARKER
  | Return_text bits => Ok (bits_to_text bits)
  end.

(* ===================================================================== *)
(** ** PSNR *)
(* ===================================================================== *)

(** The float returned by [calculate_psnr].  The squared differences are
    integers below [2^16] and there are fewer than [2^31] of them in an
    [rgb_array], so their float64 sum [sse] is exact, and [np.mean] is zero
    exactly when that sum is.  [PSNR_dB sse n] stands for
    [10 * math.log10(255.0**2 / (sse / n))]. *)
Inductive psnr_value : Type :=
| PSNR_inf
| PSNR_nan
| PSNR_dB (sse n : Z).

(** numpy's rule for one axis of [img1 - img2]. *)
Definition broadcast_dim (a b : Z) : result Z :=
  if a =? b then Ok a
  else if a =? 1 then Ok b
  else if b =? 1 then Ok a
  else Raise ValueError_broadcast.

(** [a[i, j, c]]. *)
Definition sample (a : ndarray) (i j c : Z) : Z :=
  nth (Z.to_nat ((i * width a + j) * 3 + c)) (flat a) 0.

(** [a[i, j, c]] after [a] is stretched along its axes of length one. *)
Definition stretched (a : ndarray) (i j c : Z) : Z :=
  sample a (if height a =? 1 then 0 else i) (if width a =? 1 then 0 else j) c.

Definition range (n : Z) : list Z := map Z.of_nat (seq 0 (Z.to_nat n)).

Definition total (l : list Z) : Z := fold_right Z.add 0 l.

(** [np.sum((img1 - img2) ** 2)] over the broadcast shape [(h, w, 3)]. *)
Definition squared_error (img1 img2 : ndarray) (h w : Z) : Z :=
  total (flat_map (fun i =>
           flat_map (fun j =>
             map (fun c => (stretched img1 i j c - stretched img2 i j c) ^ 2)
                 (range 3))
             (range w))
           (range h)).

(** [calculate_psnr] (lines 90-102) from the two loaded arrays on.  The
    mean of an empty array is [nan], which is not equal to zero and which
    the division and [math.log10] pass through. *)
Definition calculate_psnr (img1 img2 : ndarray) : result psnr_value :=
  h <- broadcast_dim (height img1) (height img2) ;;
  w <- broadcast_dim (width img1) (width img2) ;;
  let n := h * w * 3 in
  if n =? 0 then Ok PSNR_nan
  else
    let sse := squared_error img1 img2 h w in
    if sse =? 0 then Ok PSNR_inf else Ok (PSNR_dB sse n).

(* ===================================================================== *)
(** ** Vocabulary of the statements *)
(* ===================================================================== *)

(** [max_capacity] of line 43. *)
Definition capacity (img : ndarray) : Z := width img * height img * 3.

(** [length_bits] and [full_bits] of lines 39-40 as functions of
    [text_bits]. *)
Definition length_bits_of (text_bits : bitstr) : bitstr :=
  zfill header_len (bin (len text_bits)).
Definition full_bits_of (text_bits : bitstr) : bitstr :=
  length_bits_of text_bits ++ text_bits.

(** The least significant bits of all samples, in flattened order. *)
Definition lsbs (img : ndarray) : bitstr :=
  join_bits (map (fun x => Z.land x 1) (flat img)).

(** The seven high-order bits of a sample. *)
Definition high7 (x : Z) : Z := Z.shiftr x 1.

(** The buffer after the assignment of line 56 when [bit_list] fits. *)
Fixpoint stamp (flat_array bit_list : list Z) : list Z :=
  match flat_array, bit_list with
  | x :: xs, b :: bs => Z.lor (Z.land x 254) b :: stamp xs bs
  | _, _ => flat_array
  end.

(** The two axes of [img1 - img2] can be combined. *)
Definition compatible (a b : Z) : Prop := a = b \/ a = 1 \/ b = 1.

(** A value of a [bytes] object. *)
Definition is_byte (b : Z) : Prop := 0 <= b < 256.

(** A picture of one colour value, and the data of the examples. *)
Definition blank (h w v : Z) : ndarray :=
  mk_ndarray h w (repeat v (Z.to_nat (h * w * 3))).

Definition picture_4x4 : ndarray := blank 4 4 255.
Definition picture_10x10 : ndarray := blank 10 10 128.
Definition black_4x4 : ndarray := blank 4 4 0.

(** The text of [n] letters ['a']. *)
Definition letters (n : Z) : str := repeat 97 (Z.to_nat n).

(** ["hello"]. *)
Definition hello : str := [104; 101; 108; 108; 111].

(** [text.lstrip('\x00')]: the text without its leading U+0000
    characters. *)
Fixpoint lstrip_nul (text : str) : str :=
  match text with
  | c :: rest => if c =? 0 then lstrip_nul rest else text
  | [] => []
  end.

(** The squared differences of two flattened arrays over the first [n]
    places. *)
Definition squared_diffs (a b : list Z) (n : Z) : list Z :=
  map (fun k => (nth (Z.to_nat k) a 0 - nth (Z.to_nat k) b 0) ^ 2) (range n).

(** [".png"]. *)
Definition PNG : str := [46; 112; 110; 103].

(** [s.lower()] as far as the test of line 62 can see it.  In Python's
    case table only ['P'], ['N'] and ['G'] have ['p'], ['n'] and ['g'] as
    their lowercase form, nothing but ['.'] becomes ['.'], and the one
    character whose lowercase form is longer than itself, U+0130, ends in
    U+0307; so [s.lower().endswith(".png")] has the same value when only
    the letters ['A'] to ['Z'] are mapped. *)
Definition lower (s : str) : str :=
  map (fun c => if (65 <=? c) && (c <=? 90) then c + 32 else c) s.

(** [s.endswith(suffix)]. *)
Definition endswith (s suffix : str) : bool :=
  (length suffix <=? length s)%nat &&
  if list_eq_dec Z.eq_dec (skipn (length s - length suffix) s) suffix
  then true else false.

(** The path [encode] saves to and returns (lines 61-65). *)
Definition saved_path (output_path : str) : str :=
  if negb (endswith (lower output_path) PNG) then output_path ++ PNG
  else output_path.

(** How a whole call of [encode] ends: with an exception raised before
    line 60, with an exception of [new_img.save], or with the returned
    path. *)
Inductive encode_end (E : Type) : Type :=
| Raised (e : exception)
| Save_raised (err : E)
| Returned (path : str).
Arguments Raised {E} e.
Arguments Save_raised {E} err.
Arguments Returned {E} path.

(** [encode] (lines 28-65) with its last step.  [save path a] stands for
    [Image.fromarray(a).save(path)]: what it does depends on the path and
    on the file system, so it is an argument; it answers [Some err] when
    it raises [err] and [None] when the file is written.  The first
    component is the content of the buffer [flat_array] when the call
    ends. *)
Definition encode_to_file {E : Type} (save : str -> ndarray -> option E)
    (img : ndarray) (secret_text output_path : str) : list Z * encode_end E :=
  match encode img secret_text with
  | (flat_array, Raise e) => (flat_array, Raised e)
  | (flat_array, Ok new_array) =>
      let output_path := saved_path output_path in
      match save output_path new_array with
      | Some err => (flat_array, Save_raised err)
      | None => (flat_array, Returned output_path)
      end
  end.

(** A stand-in for [new_img.save] in the examples: it refuses the file
    name [".png"], which has no stem before the extension, and writes
    every other file. *)
Definition save_with_stem (path : str) (_ : ndarray) : option unit :=
  if list_eq_dec Z.eq_dec path PNG then Some tt else None.

(* ===================================================================== *)
(** ** Lists and lengths *)
(* ===================================================================== *)

Lemma len_nonneg {A} (l : list A) : 0 <= len l.
Proof. unfold len. lia. Qed.

Lemma len_app {A} (l1 l2 : list A) : len (l1 ++ l2) = len l1 + len l2.
Proof. unfold len. rewrite length_app. lia. Qed.

Lemma len_map {A B} (f : A -> B) (l : list A) : len (map f l) = len l.
Proof. unfold len. now rewrite length_map. Qed.

Lemma len_cons {A} (x : A) (l : list A) : len (x :: l) = len l + 1.
Proof. unfold len. cbn [length]. lia. Qed.

Lemma len_repeat {A} (x : A) (n : nat) : len (repeat x n) = Z.of_nat n.
Proof. unfold len. now rewrite repeat_length. Qed.

Lemma len_zfill (w : Z) (s : bitstr) : len (zfill w s) = Z.max w (len s).
Proof.
  unfold zfill. rewrite len_app, len_repeat.
  pose proof (len_nonneg s). lia.
Qed.

Lemma join_bits_b2z (s : bitstr) :
  join_bits (map (fun x => Z.land x 1) (map Z.b2z s)) = s.
Proof.
  unfold join_bits. induction s as [|b s IH]; cbn [map]; [reflexivity|].
  rewrite IH. now destruct b.
Qed.

(* ===================================================================== *)
(** ** Binary numerals *)
(* ===================================================================== *)

Lemma bits_value_snoc (s : bitstr) (b : bool) :
  bits_value (s ++ [b]) = 2 * bits_value s + Z.b2z b.
Proof. unfold bits_value. now rewrite fold_left_app. Qed.

Lemma bits_value_zeros (k : nat) (s : bitstr) :
  bits_value (repeat false k ++ s) = bits_value s.
Proof.
  unfold bits_value. induction k as [|k IH]; [reflexivity|].
  cbn [repeat app fold_left]. exact IH.
Qed.

Lemma bits_value_bin_pos (p : positive) : bits_value (bin_pos p) = Zpos p.
Proof.
  induction p as [q IH|q IH|]; cbn [bin_pos]; [| |reflexivity];
    rewrite bits_value_snoc, IH; cbn [Z.b2z]; lia.
Qed.

Lemma bits_value_bin (n : Z) : 0 <= n -> bits_value (bin n) = n.
Proof.
  destruct n as [|p|p]; intros Hn; [reflexivity| |lia].
  apply bits_value_bin_pos.
Qed.

Lemma bits_value_zfill (w n : Z) : 0 <= n -> bits_value (zfill w (bin n)) = n.
Proof. intros Hn. unfold zfill. now rewrite bits_value_zeros, bits_value_bin. Qed.

(** The numeral of a positive number has as many digits as the number has
    bits. *)
Lemma bin_pos_size (p : positive) :
  1 <= len (bin_pos p) /\
  2 ^ (len (bin_pos p) - 1) <= Zpos p < 2 ^ len (bin_pos p).
Proof.
  induction p as [q [H1 [H2 H3]]|q [H1 [H2 H3]]|]; cbn [bin_pos].
  - rewrite len_app. change (len [true]) with 1.
    replace (len (bin_pos q) + 1 - 1) with (Z.succ (len (bin_pos q) - 1)) by lia.
    replace (len (bin_pos q) + 1) with (Z.succ (len (bin_pos q))) by lia.
    rewrite !Z.pow_succ_r by lia. lia.
  - rewrite len_app. change (len [false]) with 1.
    replace (len (bin_pos q) + 1 - 1) with (Z.succ (len (bin_pos q) - 1)) by lia.
    replace (len (bin_pos q) + 1) with (Z.succ (len (bin_pos q))) by lia.
    rewrite !Z.pow_succ_r by lia. lia.
  - change (len [true]) with 1. cbn. lia.
Qed.

Lemma len_bin_bound (n k : Z) : 0 <= n < 2 ^ k -> 1 <= k -> len (bin n) <= k.
Proof.
  intros [Hn Hk] H1. destruct n as [|p|p]; [cbn; lia| |lia].
  cbn [bin]. destruct (bin_pos_size p) as [L1 [L2 _]].
  destruct (Z_le_gt_dec (len (bin_pos p)) k) as [Hle|Hgt]; [exact Hle|].
  assert (2 ^ k <= 2 ^ (len (bin_pos p) - 1)) by (apply Z.pow_le_mono_r; lia).
  lia.
Qed.

Lemma len_length_bits (text_bits : bitstr) :
  len text_bits < 2 ^ 32 -> len (length_bits_of text_bits) = 32.
Proof.
  intros H. unfold length_bits_of, header_len. rewrite len_zfill.
  pose proof (len_nonneg text_bits).
  pose proof (len_bin_bound (len text_bits) 32). lia.
Qed.

Lemma value_length_bits (text_bits : bitstr) :
  bits_value (length_bits_of text_bits) = len text_bits.
Proof. apply bits_value_zfill, len_nonneg. Qed.

Lemma len_length_bits_ge (text_bits : bitstr) :
  32 <= len (length_bits_of text_bits).
Proof. unfold length_bits_of, header_len. rewrite len_zfill. lia. Qed.

(* ===================================================================== *)
(** ** The assignment of line 56 *)
(* ===================================================================== *)

Lemma stamp_nil_r (flat_array : list Z) : stamp flat_array [] = flat_array.
Proof. now destruct flat_array. Qed.

Lemma lsb_assign_fits (flat_array bit_list : list Z) :
  (length bit_list <= length flat_array)%nat ->
  lsb_assign flat_array bit_list = Ok (stamp flat_array bit_list).
Proof.
  intros Hfit. unfold lsb_assign.
  rewrite length_firstn, Nat.min_l, Nat.eqb_refl by exact Hfit.
  f_equal. revert flat_array Hfit.
  induction bit_list as [|b bs IH]; intros [|x xs] Hfit; cbn in Hfit |- *;
    try reflexivity; try lia.
  f_equal. apply IH. lia.
Qed.

Lemma stamp_length (flat_array bit_list : list Z) :
  length (stamp flat_array bit_list) = length flat_array.
Proof.
  revert bit_list. induction flat_array as [|x xs IH]; intros [|b bs];
    cbn; try reflexivity.
  now rewrite IH.
Qed.

Lemma stamp_frame (flat_array bit_list : list Z) (i : nat) :
  (length bit_list <= i)%nat ->
  nth_error (stamp flat_array bit_list) i = nth_error flat_array i.
Proof.
  revert bit_list i. induction flat_array as [|x xs IH]; intros [|b bs] i Hi;
    try reflexivity.
  destruct i as [|i]; cbn in Hi |- *; [lia|]. apply IH. lia.
Qed.

Lemma stamped_lsb (x b : Z) : b = 0 \/ b = 1 ->
  Z.land (Z.lor (Z.land x 254) b) 1 = b.
Proof.
  intros Hb. rewrite Z.land_lor_distr_l, <- Z.land_assoc.
  change (Z.land 254 1) with 0. rewrite Z.land_0_r, Z.lor_0_l.
  now destruct Hb; subst b.
Qed.

Lemma stamp_lsbs (flat_array : list Z) (s : bitstr) :
  (length s <= length flat_array)%nat ->
  join_bits (map (fun x => Z.land x 1) (stamp flat_array (map Z.b2z s))) =
  s ++ join_bits (map (fun x => Z.land x 1) (skipn (length s) flat_array)).
Proof.
  revert flat_array. induction s as [|b s IH]; intros flat_array Hfit.
  - cbn [map length skipn app]. now rewrite stamp_nil_r.
  - destruct flat_array as [|x xs]; cbn in Hfit; [lia|].
    cbn [map stamp length skipn join_bits app].
    fold (join_bits (map (fun x => Z.land x 1) (stamp xs (map Z.b2z s)))).
    rewrite IH by lia. f_equal.
    rewrite stamped_lsb by (destruct b; auto). now destruct b.
Qed.

Lemma bit_above_byte (x m : Z) : 0 <= x < 256 -> 8 <= m -> Z.testbit x m = false.
Proof.
  intros Hx Hm. destruct (Z.eq_dec x 0) as [->|Hnz]; [apply Z.bits_0|].
  apply Z.bits_above_log2; [lia|].
  assert (Z.log2 x < 8) by (apply Z.log2_lt_pow2; lia). lia.
Qed.

Lemma stamped_high7 (x b : Z) : 0 <= x < 256 -> b = 0 \/ b = 1 ->
  high7 (Z.lor (Z.land x 254) b) = high7 x.
Proof.
  intros Hx Hb. unfold high7. apply Z.bits_inj'. intros n Hn.
  rewrite !Z.shiftr_spec, Z.lor_spec, Z.land_spec by lia.
  assert (Hbit : Z.testbit b (n + 1) = false).
  { destruct Hb; subst b; [apply Z.bits_0|].
    apply Z.bits_above_log2; cbn; lia. }
  rewrite Hbit, orb_false_r.
  destruct (Z_lt_le_dec n 7) as [Hlow|Hhigh].
  - assert (Hc : n = 0 \/ n = 1 \/ n = 2 \/ n = 3 \/ n = 4 \/ n = 5 \/ n = 6) by lia.
    destruct Hc as [->|[->|[->|[->|[->|[->| ->]]]]]]; cbn; apply andb_true_r.
  - rewrite (bit_above_byte x (n + 1)) by lia. reflexivity.
Qed.

Lemma stamp_high7 (flat_array bit_list : list Z) :
  Forall (fun x => 0 <= x < 256) flat_array ->
  Forall (fun b => b = 0 \/ b = 1) bit_list ->
  Forall2 (fun x y => high7 y = high7 x) flat_array (stamp flat_array bit_list).
Proof.
  intros Hu8. revert bit_list.
  induction Hu8 as [|x xs Hx Hxs IH]; intros bit_list Hbits.
  - destruct bit_list; constructor.
  - destruct Hbits as [|b bs Hb Hbs]; cbn [stamp].
    + constructor; [reflexivity|]. specialize (IH [] (Forall_nil _)).
      now rewrite stamp_nil_r in IH.
    + constructor; [now apply stamped_high7|now apply IH].
Qed.

Lemma b2z_bits (s : bitstr) : Forall (fun b => b = 0 \/ b = 1) (map Z.b2z s).
Proof. induction s as [|b s IH]; constructor; [destruct b; auto|exact IH]. Qed.

(* ===================================================================== *)
(** ** The two exits of [encode] *)
(* ===================================================================== *)

Lemma encode_fits (img : ndarray) (m : str) (text_bits : bitstr) :
  text_to_bits m = Ok text_bits ->
  len (flat img) = capacity img ->
  len (full_bits_of text_bits) <= capacity img ->
  encode img m =
    (stamp (flat img) (map Z.b2z (full_bits_of text_bits)),
     Ok (mk_ndarray (height img) (width img)
           (stamp (flat img) (map Z.b2z (full_bits_of text_bits))))).
Proof.
  intros Hbits Hshape Hfit. unfold encode. rewrite Hbits.
  fold (length_bits_of text_bits). fold (full_bits_of text_bits).
  fold (capacity img).
  destruct (len (full_bits_of text_bits) >? capacity img) eqn:Hcmp; [lia|].
  rewrite lsb_assign_fits; [reflexivity|].
  rewrite length_map. unfold len in Hshape, Hfit. lia.
Qed.

Lemma encode_too_long (img : ndarray) (m : str) (text_bits : bitstr) :
  text_to_bits m = Ok text_bits ->
  capacity img < len (full_bits_of text_bits) ->
  encode img m =
    (flat img,
     Raise (ValueError_too_long (capacity img) (len (full_bits_of text_bits)))).
Proof.
  intros Hbits Hover. unfold encode. rewrite Hbits.
  fold (length_bits_of text_bits). fold (full_bits_of text_bits).
  fold (capacity img).
  destruct (len (full_bits_of text_bits) >? capacity img) eqn:Hcmp; [reflexivity|lia].
Qed.

Lemma rgb_array_capacity (img : ndarray) :
  rgb_array img -> len (flat img) = capacity img /\ capacity img < 2 ^ 32.
Proof.
  intros [Hh Hw Hpix Hshape _]. unfold capacity, MAX_IMAGE_PIXELS in *.
  split; [lia|]. change (2 ^ 32) with 4294967296. lia.
Qed.

(** A call that saved an image passed the capacity test with a header of
    exactly 32 digits, and saved the stamped buffer. *)
Lemma embed_inv (img stego : ndarray) (m : str) :
  rgb_array img ->
  embed img m = Ok stego ->
  exists text_bits,
    text_to_bits m = Ok text_bits /\
    len (length_bits_of text_bits) = 32 /\
    32 + len text_bits <= capacity img /\
    stego = mk_ndarray (height img) (width img)
              (stamp (flat img) (map Z.b2z (full_bits_of text_bits))).
Proof.
  intros Hrgb Hemb. destruct (rgb_array_capacity img Hrgb) as [Hshape Hcap].
  unfold embed in Hemb.
  destruct (text_to_bits m) as [text_bits|e] eqn:Hbits.
  - destruct (Z_le_gt_dec (len (full_bits_of text_bits)) (capacity img)) as [Hfit|Hover].
    + rewrite (encode_fits img m text_bits Hbits Hshape Hfit) in Hemb.
      cbn [snd] in Hemb. injection Hemb as <-.
      exists text_bits. unfold full_bits_of in Hfit. rewrite len_app in Hfit.
      pose proof (len_length_bits_ge text_bits) as Hge.
      assert (Hlt : len text_bits < 2 ^ 32) by lia.
      rewrite (len_length_bits text_bits Hlt) in *.
      repeat split; try reflexivity; lia.
    + rewrite (encode_too_long img m text_bits Hbits) in Hemb by lia.
      discriminate Hemb.
  - unfold encode in Hemb. rewrite Hbits in Hemb. discriminate Hemb.
Qed.

(* ===================================================================== *)
(** ** [decode] in terms of the least significant bits *)
(* ===================================================================== *)

Lemma firstn_exact {A} (a b : list A) (n : nat) :
  length a = n -> firstn n (a ++ b) = a.
Proof.
  intros <-. rewrite firstn_app, Nat.sub_diag, firstn_all.
  cbn [firstn]. apply app_nil_r.
Qed.

Lemma skipn_exact {A} (a b : list A) (n : nat) :
  length a = n -> skipn n (a ++ b) = b.
Proof.
  intros <-. rewrite skipn_app, Nat.sub_diag, skipn_all. reflexivity.
Qed.

Lemma slice_map {A B} (f : A -> B) (l : list A) (a b : Z) :
  slice (map f l) a b = map f (slice l a b).
Proof. unfold slice. now rewrite skipn_map, firstn_map. Qed.

Lemma len_lsbs (img : ndarray) : len (lsbs img) = len (flat img).
Proof. unfold lsbs, join_bits. now rewrite !len_map. Qed.

Lemma read_header_lsbs (img : ndarray) :
  read_header img = int_base2 (firstn 32 (lsbs img)).
Proof.
  unfold read_header, lsbs, join_bits.
  change (Z.to_nat header_len) with 32%nat. now rewrite !firstn_map.
Qed.

Lemma decode_branch_lsbs (img : ndarray) :
  decode_branch img =
    (msg_len <- read_header img ;;
     if msg_len >? len (flat img) - header_len then Ok Return_no_marker
     else Ok (Return_text (slice (lsbs img) header_len (header_len + msg_len)))).
Proof.
  unfold decode_branch, read_header, lsbs.
  destruct (int_base2 _) as [msg_len|e]; [|reflexivity].
  cbn [bind]. rewrite len_map.
  destruct (msg_len >? len (flat img) - header_len); [reflexivity|].
  unfold join_bits. now rewrite !slice_map.
Qed.

Lemma int_base2_nonempty (s : bitstr) :
  s <> [] -> int_base2 s = Ok (bits_value s).
Proof. destruct s; [congruence|reflexivity]. Qed.

(** With at least 32 samples the header is a numeral. *)
Lemma read_header_ok (img : ndarray) :
  32 <= len (flat img) ->
  read_header img = Ok (bits_value (firstn 32 (lsbs img))).
Proof.
  intros Hlen. rewrite read_header_lsbs. apply int_base2_nonempty.
  intros Hnil. apply (f_equal (@length bool)) in Hnil.
  rewrite length_firstn in Hnil. pose proof (len_lsbs img) as Hl.
  unfold len in Hl, Hlen. cbn [length] in Hnil. lia.
Qed.

(** What [decode] reads in an image produced by [encode]. *)
Lemma lsbs_stamped (img : ndarray) (text_bits : bitstr) :
  len (full_bits_of text_bits) <= len (flat img) ->
  lsbs (mk_ndarray (height img) (width img)
          (stamp (flat img) (map Z.b2z (full_bits_of text_bits)))) =
  length_bits_of text_bits ++ text_bits ++
  join_bits (map (fun x => Z.land x 1)
               (skipn (length (full_bits_of text_bits)) (flat img))).
Proof.
  intros Hfit. unfold lsbs. cbn [flat].
  rewrite stamp_lsbs by (unfold len in Hfit; lia).
  unfold full_bits_of at 1. now rewrite <- app_assoc.
Qed.

Lemma decode_branch_stamped (img : ndarray) (text_bits : bitstr) :
  len (length_bits_of text_bits) = 32 ->
  32 + len text_bits <= len (flat img) ->
  let stego := mk_ndarray (height img) (width img)
                 (stamp (flat img) (map Z.b2z (full_bits_of text_bits))) in
  firstn 32 (lsbs stego) = length_bits_of text_bits /\
  read_header stego = Ok (len text_bits) /\
  slice (lsbs stego) 32 (32 + len text_bits) = text_bits /\
  decode_branch stego = Ok (Return_text text_bits).
Proof.
  intros Hhdr Hfit stego.
  assert (Hfull : len (full_bits_of text_bits) <= len (flat img)).
  { unfold full_bits_of. rewrite len_app. lia. }
  assert (Hl : length (length_bits_of text_bits) = 32%nat).
  { unfold len in Hhdr. lia. }
  assert (Hfirst : firstn 32 (lsbs stego) = length_bits_of text_bits).
  { subst stego. rewrite (lsbs_stamped img text_bits Hfull).
    now apply firstn_exact. }
  assert (Hread : read_header stego = Ok (len text_bits)).
  { rewrite read_header_lsbs, Hfirst, int_base2_nonempty.
    - now rewrite value_length_bits.
    - intros Hnil. rewrite Hnil in Hl. discriminate Hl. }
  assert (Hslice : slice (lsbs stego) 32 (32 + len text_bits) = text_bits).
  { subst stego. rewrite (lsbs_stamped img text_bits Hfull). unfold slice.
    change (Z.to_nat 32) with 32%nat. rewrite skipn_exact by exact Hl.
    apply firstn_exact. unfold len. lia. }
  repeat split; try assumption.
  rewrite decode_branch_lsbs, Hread. cbn [bind].
  assert (Hlen : len (flat stego) = len (flat img)).
  { subst stego. cbn [flat]. unfold len. now rewrite stamp_length. }
  rewrite Hlen. unfold header_len.
  destruct (len text_bits >? len (flat img) - 32) eqn:Hcmp; [lia|].
  now rewrite Hslice.
Qed.

(** Extraction after a successful embedding hands the embedded bit string
    to [bits_to_text]. *)
Lemma decode_embed (img stego : ndarray) (m : str) (text_bits : bitstr) :
  rgb_array img ->
  text_to_bits m = Ok text_bits ->
  embed img m = Ok stego ->
  decode stego = Ok (bits_to_text text_bits).
Proof.
  intros Hrgb Hbits Hemb.
  destruct (embed_inv img stego m Hrgb Hemb) as (tb & Htb & Hhdr & Hfit & ->).
  rewrite Hbits in Htb. injection Htb as <-.
  destruct (rgb_array_capacity img Hrgb) as [Hshape _].
  destruct (decode_branch_stamped img text_bits Hhdr) as (_ & _ & _ & Hbr); [lia|].
  unfold decode. now rewrite Hbr.
Qed.

Lemma blank_rgb_array (h w v : Z) :
  0 < h -> 0 < w -> w * h <= 2 * MAX_IMAGE_PIXELS -> 0 <= v < 256 ->
  rgb_array (blank h w v).
Proof.
  intros Hh Hw Hpix Hv. unfold blank. constructor; cbn [height width flat];
    try assumption.
  - rewrite len_repeat. nia.
  - apply Forall_forall. intros x Hx. now apply repeat_spec in Hx as ->.
Qed.

(* ===================================================================== *)
(** ** Extraction *)
(* ===================================================================== *)

Lemma bits_value_all_false (s : bitstr) :
  Forall (fun b => b = false) s -> bits_value s = 0.
Proof.
  induction s as [|b s IH] using rev_ind; intros Hall; [reflexivity|].
  apply Forall_app in Hall as [Hs Hb]. rewrite bits_value_snoc, IH by exact Hs.
  now inversion Hb as [|? ? ->].
Qed.

Lemma Forall_prefix {A} (P : A -> Prop) (n : nat) (l : list A) :
  Forall P l -> Forall P (firstn n l).
Proof.
  intros Hall. revert n. induction Hall as [|x xs Hx _ IH]; intros [|n];
    cbn [firstn]; constructor; auto.
Qed.

Lemma lsbs_all_zero (img : ndarray) :
  Forall (fun x => Z.land x 1 = 0) (flat img) ->
  Forall (fun b => b = false) (lsbs img).
Proof.
  unfold lsbs, join_bits. intros Hall.
  induction Hall as [|x xs Hx _ IH]; cbn [map]; constructor; [|exact IH].
  now rewrite Hx.
Qed.

(** C2 (as amended).  On an image of at least 32 samples whose least
    significant bits are all zero, [decode] reads the header as length 0,
    passes the capacity test with an empty payload, and returns the fixed
    string of the handler of [bits_to_text], because [int('', 2)] raises. *)
Theorem decode_all_zero_lsbs (img : ndarray)
  (Hlen : 32 <= len (flat img))
  (Hzero : Forall (fun x => Z.land x 1 = 0) (flat img)) :
  read_header img = Ok 0 /\
  decode_branch img = Ok (Return_text []) /\
  bits_to_text_try [] = Raise ValueError_int_literal /\
  decode img = Ok DECODE_ERROR.
Proof.
  assert (Hhdr : read_header img = Ok 0).
  { rewrite (read_header_ok img Hlen). f_equal.
    apply bits_value_all_false, Forall_prefix, lsbs_all_zero, Hzero. }
  assert (Hbr : decode_branch img = Ok (Return_text [])).
  { rewrite decode_branch_lsbs, Hhdr. cbn [bind]. unfold header_len.
    destruct (0 >? len (flat img) - 32) eqn:Hcmp; [lia|]. reflexivity. }
  repeat split; try assumption; try reflexivity.
  unfold decode. now rewrite Hbr.
Qed.

Lemma decode_all_zero_lsbs_witness :
  32 <= len (flat black_4x4) /\
  Forall (fun x => Z.land x 1 = 0) (flat black_4x4) /\
  decode black_4x4 = Ok DECODE_ERROR.
Proof.
  assert (Hlen : 32 <= len (flat black_4x4)) by (vm_compute; discriminate).
  assert (Hzero : Forall (fun x => Z.land x 1 = 0) (flat black_4x4)).
  { apply Forall_forall. intros x Hx. now apply repeat_spec in Hx as ->. }
  split; [exact Hlen|]. split; [exact Hzero|].
  exact (proj2 (proj2 (proj2 (decode_all_zero_lsbs black_4x4 Hlen Hzero)))).
Defined.

(** C2 (as stated) fails: a 4x4 picture of zero samples has 48 samples,
    all with least significant bit 0, and [decode] returns the error
    string, not the empty message. *)
Lemma all_zero_image_is_decode_error :
  32 <= len (flat black_4x4) /\
  Forall (fun x => Z.land x 1 = 0) (flat black_4x4) /\
  read_header black_4x4 = Ok 0 /\
  decode black_4x4 = Ok DECODE_ERROR /\
  decode black_4x4 <> Ok [].
Proof.
  split; [vm_compute; discriminate|]. split.
  - apply Forall_forall. intros x Hx. now apply repeat_spec in Hx as ->.
  - split; [reflexivity|]. split; [reflexivity|]. vm_compute. discriminate.
Qed.

(** C8.  On an image of at least 32 samples the header is read as a
    big-endian number [msg_len]; [decode] takes the no-marker return exactly
    when [msg_len] exceeds the number of samples minus 32, and otherwise
    hands the next [msg_len] least significant bits to [bits_to_text]. *)
Theorem decode_capacity_guard (img : ndarray)
  (Hshape : len (flat img) = capacity img)
  (Hlen : 32 <= capacity img) :
  exists msg_len,
    msg_len = bits_value (firstn 32 (lsbs img)) /\
    read_header img = Ok msg_len /\
    (decode_branch img = Ok Return_no_marker <-> msg_len > capacity img - 32) /\
    (msg_len > capacity img - 32 -> decode img = Ok NO_MARKER) /\
    (msg_len <= capacity img - 32 ->
       decode_branch img = Ok (Return_text (slice (lsbs img) 32 (32 + msg_len))) /\
       decode img = Ok (bits_to_text (slice (lsbs img) 32 (32 + msg_len)))).
Proof.
  exists (bits_value (firstn 32 (lsbs img))).
  set (msg_len := bits_value (firstn 32 (lsbs img))).
  assert (Hhdr : read_header img = Ok msg_len).
  { apply read_header_ok. lia. }
  assert (Hbr : decode_branch img =
                if msg_len >? capacity img - 32 then Ok Return_no_marker
                else Ok (Return_text (slice (lsbs img) 32 (32 + msg_len)))).
  { rewrite decode_branch_lsbs, Hhdr, Hshape. reflexivity. }
  split; [reflexivity|]. split; [exact Hhdr|].
  unfold decode. rewrite Hbr.
  destruct (msg_len >? capacity img - 32) eqn:Hcmp; cbn [bind].
  - repeat split; intros; try reflexivity; lia.
  - repeat split; intros; try reflexivity; try lia. discriminate.
Qed.

Lemma decode_capacity_guard_witness :
  len (flat picture_4x4) = capacity picture_4x4 /\
  32 <= capacity picture_4x4 /\
  exists msg_len,
    read_header picture_4x4 = Ok msg_len /\
    (decode_branch picture_4x4 = Ok Return_no_marker <->
     msg_len > capacity picture_4x4 - 32).
Proof.
  assert (Hshape : len (flat picture_4x4) = capacity picture_4x4) by reflexivity.
  assert (Hlen : 32 <= capacity picture_4x4) by (vm_compute; discriminate).
  split; [exact Hshape|]. split; [exact Hlen|].
  destruct (decode_capacity_guard picture_4x4 Hshape Hlen)
    as (msg_len & _ & Hhdr & Hiff & _).
  exists msg_len. split; [exact Hhdr|exact Hiff].
Defined.

(* ===================================================================== *)
(** ** Embedding *)
(* ===================================================================== *)

(** C5.  Bit isolation: after a successful [encode] every sample of the
    saved image, stamped or not, has the seven high-order bits of the
    sample at the same place of the original image. *)
Theorem embed_preserves_high_bits (img stego : ndarray) (m : str)
  (Hrgb : rgb_array img)
  (Hemb : embed img m = Ok stego) :
  Forall2 (fun x y => high7 y = high7 x) (flat img) (flat stego).
Proof.
  destruct (embed_inv img stego m Hrgb Hemb) as (text_bits & _ & _ & _ & ->).
  cbn [flat]. apply stamp_high7; [apply (flat_uint8 img Hrgb)|apply b2z_bits].
Qed.

Lemma embed_preserves_high_bits_witness :
  rgb_array picture_10x10 /\
  (exists stego, embed picture_10x10 hello = Ok stego /\
     Forall2 (fun x y => high7 y = high7 x) (flat picture_10x10) (flat stego)).
Proof.
  assert (Hrgb : rgb_array picture_10x10).
  { apply blank_rgb_array; unfold MAX_IMAGE_PIXELS; lia. }
  split; [exact Hrgb|].
  destruct (embed picture_10x10 hello) as [stego|e] eqn:Hemb;
    [|vm_compute in Hemb; discriminate Hemb].
  exists stego. split; [reflexivity|].
  exact (embed_preserves_high_bits picture_10x10 stego hello Hrgb Hemb).
Defined.

(** C6.  Frame: after a successful [encode] the samples at the flattened
    indices from [32 + len(text_bits)] on are those of the original image;
    the saved image has the shape of the original, and the samples before
    that index differ from the original ones in the lowest bit at most. *)
Theorem embed_frame (img stego : ndarray) (m : str) (text_bits : bitstr)
  (Hrgb : rgb_array img)
  (Hbits : text_to_bits m = Ok text_bits)
  (Hemb : embed img m = Ok stego) :
  (forall i, 32 + len text_bits <= i ->
     nth_error (flat stego) (Z.to_nat i) = nth_error (flat img) (Z.to_nat i)) /\
  height stego = height img /\ width stego = width img /\
  len (flat stego) = len (flat img) /\
  Forall2 (fun x y => high7 y = high7 x) (flat img) (flat stego).
Proof.
  destruct (embed_inv img stego m Hrgb Hemb) as (tb & Htb & Hhdr & Hfit & ->).
  rewrite Hbits in Htb. injection Htb as <-. cbn [flat height width].
  split; [|repeat split].
  - intros i Hi. apply stamp_frame. rewrite length_map.
    assert (Hfull : len (full_bits_of text_bits) = 32 + len text_bits).
    { unfold full_bits_of. rewrite len_app. lia. }
    unfold len in Hfull, Hi. lia.
  - unfold len. now rewrite stamp_length.
  - apply stamp_high7; [apply (flat_uint8 img Hrgb)|apply b2z_bits].
Qed.

Lemma embed_frame_witness :
  rgb_array picture_10x10 /\
  text_to_bits hello = Ok (false :: bin 0x68656C6C6F) /\
  (exists stego, embed picture_10x10 hello = Ok stego /\
     nth_error (flat stego) 72 = nth_error (flat picture_10x10) 72).
Proof.
  assert (Hrgb : rgb_array picture_10x10).
  { apply blank_rgb_array; unfold MAX_IMAGE_PIXELS; lia. }
  assert (Hbits : text_to_bits hello = Ok (false :: bin 0x68656C6C6F)) by reflexivity.
  split; [exact Hrgb|]. split; [exact Hbits|].
  destruct (embed picture_10x10 hello) as [stego|e] eqn:Hemb;
    [|vm_compute in Hemb; discriminate Hemb].
  exists stego. split; [reflexivity|].
  refine (proj1 (embed_frame picture_10x10 stego hello _ Hrgb Hbits Hemb) 72 _).
  vm_compute. discriminate.
Defined.

(** C7.  Header: after a successful [encode] the first 32 least
    significant bits of the saved image are the 32-digit binary numeral,
    most significant digit first, of the number of payload bits
    [len(text_bits)], and the payload follows from index 32 on. *)
Theorem embed_header (img stego : ndarray) (m : str) (text_bits : bitstr)
  (Hrgb : rgb_array img)
  (Hbits : text_to_bits m = Ok text_bits)
  (Hemb : embed img m = Ok stego) :
  firstn 32 (lsbs stego) = length_bits_of text_bits /\
  len (length_bits_of text_bits) = 32 /\
  bits_value (firstn 32 (lsbs stego)) = len text_bits /\
  read_header stego = Ok (len text_bits) /\
  slice (lsbs stego) 32 (32 + len text_bits) = text_bits.
Proof.
  destruct (embed_inv img stego m Hrgb Hemb) as (tb & Htb & Hhdr & Hfit & ->).
  rewrite Hbits in Htb. injection Htb as <-.
  destruct (rgb_array_capacity img Hrgb) as [Hshape _].
  destruct (decode_branch_stamped img text_bits Hhdr) as (Hf & Hr & Hs & _); [lia|].
  cbv zeta in Hf, Hr, Hs. rewrite Hf.
  repeat split; try assumption. apply value_length_bits.
Qed.

Lemma embed_header_witness :
  rgb_array picture_10x10 /\
  (exists stego, embed picture_10x10 hello = Ok stego /\
     read_header stego = Ok 40).
Proof.
  assert (Hrgb : rgb_array picture_10x10).
  { apply blank_rgb_array; unfold MAX_IMAGE_PIXELS; lia. }
  assert (Hbits : text_to_bits hello = Ok (false :: bin 0x68656C6C6F)) by reflexivity.
  split; [exact Hrgb|].
  destruct (embed picture_10x10 hello) as [stego|e] eqn:Hemb;
    [|vm_compute in Hemb; discriminate Hemb].
  exists stego. split; [reflexivity|].
  exact (proj1 (proj2 (proj2 (proj2
    (embed_header picture_10x10 stego hello _ Hrgb Hbits Hemb))))).
Defined.

(** C10.  The empty message: [text_to_bits("")] is the string of exactly
    eight ['0'] digits, and on every image of capacity at least 40 bits
    embedding the empty message succeeds and extraction from the result
    returns the empty string. *)
Theorem empty_message_round_trip (img : ndarray)
  (Hrgb : rgb_array img)
  (Hcap : 40 <= capacity img) :
  text_to_bits [] = Ok (repeat false 8) /\
  len (repeat false 8) = 8 /\
  exists stego, embed img [] = Ok stego /\ decode stego = Ok [].
Proof.
  split; [reflexivity|]. split; [reflexivity|].
  destruct (rgb_array_capacity img Hrgb) as [Hshape _].
  assert (Hbits : text_to_bits [] = Ok (repeat false 8)) by reflexivity.
  assert (Hfit : len (full_bits_of (repeat false 8)) <= capacity img).
  { change (len (full_bits_of (repeat false 8))) with 40. exact Hcap. }
  pose proof (encode_fits img [] _ Hbits Hshape Hfit) as Henc.
  eexists. split.
  - unfold embed. rewrite Henc. reflexivity.
  - rewrite (decode_embed img _ [] (repeat false 8) Hrgb Hbits); [reflexivity|].
    unfold embed. rewrite Henc. reflexivity.
Qed.

Lemma empty_message_round_trip_witness :
  rgb_array picture_4x4 /\ 40 <= capacity picture_4x4 /\
  exists stego, embed picture_4x4 [] = Ok stego /\ decode stego = Ok [].
Proof.
  assert (Hrgb : rgb_array picture_4x4).
  { apply blank_rgb_array; unfold MAX_IMAGE_PIXELS; lia. }
  assert (Hcap : 40 <= capacity picture_4x4) by (vm_compute; discriminate).
  split; [exact Hrgb|]. split; [exact Hcap|].
  exact (proj2 (proj2 (empty_message_round_trip picture_4x4 Hrgb Hcap))).
Defined.

(* ===================================================================== *)
(** ** PSNR *)
(* ===================================================================== *)

Lemma total_app (l1 l2 : list Z) : total (l1 ++ l2) = total l1 + total l2.
Proof. unfold total. induction l1 as [|x l1 IH]; cbn [app fold_right]; lia. Qed.

Lemma total_flat_map_zero {A} (f : A -> list Z) (l : list A) :
  (forall x, total (f x) = 0) -> total (flat_map f l) = 0.
Proof.
  intros Hf. induction l as [|x l IH]; [reflexivity|].
  cbn [flat_map]. rewrite total_app, Hf, IH. reflexivity.
Qed.

Lemma total_map_zero {A} (f : A -> Z) (l : list A) :
  (forall x, f x = 0) -> total (map f l) = 0.
Proof.
  intros Hf. induction l as [|x l IH]; [reflexivity|].
  cbn [map total fold_right]. fold (total (map f l)). rewrite Hf, IH. reflexivity.
Qed.

Lemma squared_error_same (img : ndarray) (h w : Z) : squared_error img img h w = 0.
Proof.
  unfold squared_error. apply total_flat_map_zero. intros i.
  apply total_flat_map_zero. intros j. apply total_map_zero. intros c.
  now rewrite Z.sub_diag.
Qed.

Lemma broadcast_dim_same (a : Z) : broadcast_dim a a = Ok a.
Proof. unfold broadcast_dim. now rewrite Z.eqb_refl. Qed.

Lemma broadcast_dim_ok (a b : Z) :
  compatible a b -> exists d, broadcast_dim a b = Ok d.
Proof.
  unfold compatible, broadcast_dim. intros Hc.
  destruct (a =? b) eqn:E1; [eauto|].
  destruct (a =? 1) eqn:E2; [eauto|].
  destruct (b =? 1) eqn:E3; [eauto|]. lia.
Qed.

Lemma broadcast_dim_raise (a b : Z) :
  ~ compatible a b -> broadcast_dim a b = Raise ValueError_broadcast.
Proof.
  unfold compatible, broadcast_dim. intros Hc.
  destruct (a =? b) eqn:E1; [lia|].
  destruct (a =? 1) eqn:E2; [lia|].
  destruct (b =? 1) eqn:E3; [lia|]. reflexivity.
Qed.

Lemma compatible_dec (a b : Z) : {compatible a b} + {~ compatible a b}.
Proof.
  unfold compatible.
  destruct (Z.eq_dec a b); [left; auto|].
  destruct (Z.eq_dec a 1); [left; auto|].
  destruct (Z.eq_dec b 1); [left; auto|]. right. lia.
Qed.

Lemma psnr_after_broadcast (img1 img2 : ndarray) (h w : Z) :
  broadcast_dim (height img1) (height img2) = Ok h ->
  broadcast_dim (width img1) (width img2) = Ok w ->
  exists v, calculate_psnr img1 img2 = Ok v.
Proof.
  intros Hh Hw. unfold calculate_psnr. rewrite Hh, Hw. cbn [bind].
  destruct (h * w * 3 =? 0); [eauto|].
  destruct (squared_error img1 img2 h w =? 0); eauto.
Qed.

(** C9.  PSNR identity: the squared error of an image against itself is
    exactly zero and [calculate_psnr] returns positive infinity. *)
Theorem psnr_identity (img : ndarray) (Hrgb : rgb_array img) :
  squared_error img img (height img) (width img) = 0 /\
  calculate_psnr img img = Ok PSNR_inf.
Proof.
  split; [apply squared_error_same|].
  unfold calculate_psnr. rewrite !broadcast_dim_same. cbn [bind].
  pose proof (height_pos img Hrgb). pose proof (width_pos img Hrgb).
  destruct (height img * width img * 3 =? 0) eqn:Hn; [nia|].
  now rewrite squared_error_same.
Qed.

Lemma psnr_identity_witness :
  rgb_array picture_10x10 /\ calculate_psnr picture_10x10 picture_10x10 = Ok PSNR_inf.
Proof.
  assert (Hrgb : rgb_array picture_10x10).
  { apply blank_rgb_array; unfold MAX_IMAGE_PIXELS; lia. }
  split; [exact Hrgb|exact (proj2 (psnr_identity picture_10x10 Hrgb))].
Defined.

(** What [calculate_psnr] does with two shapes.  It has no shape test of
    its own and leaves the matter to [img1 - img2]: it raises, with
    numpy's broadcast error, exactly when the heights or the widths of the
    two arrays cannot be combined (they differ and neither is 1), and
    returns a float in every other case, in particular for two arrays of
    the same shape. *)
Theorem psnr_shape_guard (img1 img2 : ndarray) :
  (calculate_psnr img1 img2 = Raise ValueError_broadcast <->
   ~ (compatible (height img1) (height img2) /\
      compatible (width img1) (width img2))) /\
  ((exists v, calculate_psnr img1 img2 = Ok v) <->
   compatible (height img1) (height img2) /\
   compatible (width img1) (width img2)) /\
  (height img1 = height img2 /\ width img1 = width img2 ->
   exists v, calculate_psnr img1 img2 = Ok v).
Proof.
  assert (Hok : compatible (height img1) (height img2) /\
                compatible (width img1) (width img2) ->
                exists v, calculate_psnr img1 img2 = Ok v).
  { intros [Hh Hw].
    destruct (broadcast_dim_ok _ _ Hh) as [h Eh].
    destruct (broadcast_dim_ok _ _ Hw) as [w Ew].
    exact (psnr_after_broadcast img1 img2 h w Eh Ew). }
  assert (Hbad : ~ (compatible (height img1) (height img2) /\
                    compatible (width img1) (width img2)) ->
                 calculate_psnr img1 img2 = Raise ValueError_broadcast).
  { intros Hn. unfold calculate_psnr.
    destruct (compatible_dec (height img1) (height img2)) as [Hh|Hh].
    - destruct (broadcast_dim_ok _ _ Hh) as [h ->]. cbn [bind].
      destruct (compatible_dec (width img1) (width img2)) as [Hw|Hw]; [tauto|].
      now rewrite (broadcast_dim_raise _ _ Hw).
    - now rewrite (broadcast_dim_raise _ _ Hh). }
  assert (Hdec : {compatible (height img1) (height img2) /\
                  compatible (width img1) (width img2)} +
                 {~ (compatible (height img1) (height img2) /\
                     compatible (width img1) (width img2))}).
  { destruct (compatible_dec (height img1) (height img2));
      destruct (compatible_dec (width img1) (width img2)); tauto. }
  split; [|split].
  - split; [|exact Hbad]. intros Hraise Hc.
    destruct (Hok Hc) as [v Hv]. congruence.
  - split; [|exact Hok]. intros [v Hv].
    destruct Hdec as [Hc|Hn]; [exact Hc|]. rewrite (Hbad Hn) in Hv. discriminate Hv.
  - intros [Eh Ew]. apply Hok. unfold compatible. auto.
Qed.

(** C3 does not hold of the code, which misses a case.  Two pictures of
    2x2 and of 3x3 pixels make [calculate_psnr] raise, and its caller
    [do_calc_psnr] (lines 227-232) reports that as sizes that must agree.
    A picture of one pixel and a picture of two pixels in a row differ in
    width as well, but numpy stretches the first over the second and
    [calculate_psnr] returns a finite value, about 41.6 dB. *)
Theorem psnr_of_unequal_widths :
  width (mk_ndarray 1 1 [1; 2; 3]) <> width (mk_ndarray 1 2 [1; 2; 3; 4; 5; 6]) /\
  calculate_psnr (mk_ndarray 1 1 [1; 2; 3]) (mk_ndarray 1 2 [1; 2; 3; 4; 5; 6])
    = Ok (PSNR_dB 27 6) /\
  calculate_psnr (blank 2 2 0) (blank 3 3 0) = Raise ValueError_broadcast.
Proof. split; [cbn; discriminate|split; reflexivity]. Qed.

(** Linear arithmetic with division and remainder by constants. *)
Ltac dlia := Z.div_mod_to_equations; lia.

Lemma lor_high_low (a k r : Z) :
  0 <= k -> 0 <= r < 2 ^ k -> Z.lor (a * 2 ^ k) r = a * 2 ^ k + r.
Proof.
  intros Hk Hr. rewrite <- Z.add_lor_land.
  assert (Hland : Z.land (a * 2 ^ k) r = 0).
  { apply Z.bits_inj'. intros m Hm. rewrite Z.land_spec, Z.bits_0.
    destruct (Z_lt_le_dec m k) as [Hlow|Hhigh].
    - now rewrite Z.mul_pow2_bits_low.
    - rewrite <- (Z.mod_small r (2 ^ k)) by exact Hr.
      rewrite Z.mod_pow2_bits_high by lia. apply andb_false_r. }
  rewrite Hland. lia.
Qed.

Lemma Ok_inj {A} (a b : A) : Ok a = Ok b -> a = b.
Proof. now intros [= ->]. Qed.

Module Utf8Facts.
Import Utf8.

Lemma low6_val (b : Z) : low6 b = b mod 64.
Proof. unfold low6. change 0x3F with (Z.ones 6). now rewrite Z.land_ones. Qed.

Lemma tail6_val (c : Z) : tail6 c = 128 + c mod 64.
Proof.
  unfold tail6. change 0x3F with (Z.ones 6). rewrite Z.land_ones by lia.
  change 0x80 with (2 * 2 ^ 6). rewrite lor_high_low; [reflexivity|lia|].
  change (2 ^ 6) with 64. apply Z.mod_pos_bound. lia.
Qed.

(** The byte sequences of the four length classes. *)
Lemma encode_char_shape (c : Z) (bs : bytes) :
  encode_char c = Ok bs ->
  (0 <= c < 128 /\ bs = [c]) \/
  (128 <= c < 2048 /\ bs = [192 + c / 64; 128 + c mod 64]) \/
  (2048 <= c < 65536 /\ ~ (55296 <= c <= 57343) /\
   bs = [224 + c / 4096; 128 + (c / 64) mod 64; 128 + c mod 64]) \/
  (65536 <= c < 1114112 /\
   bs = [240 + c / 262144; 128 + (c / 4096) mod 64;
         128 + (c / 64) mod 64; 128 + c mod 64]).
Proof.
  unfold encode_char, is_surrogate.
  destruct (Z.ltb_spec c 0); [discriminate|].
  destruct (Z.ltb_spec c 0x80); [intros <-%Ok_inj; left; split; [lia|reflexivity]|].
  destruct (Z.ltb_spec c 0x800).
  { intros <-%Ok_inj. right; left. split; [lia|].
    rewrite tail6_val, Z.shiftr_div_pow2 by lia.
    change 0xC0 with (6 * 2 ^ 5). rewrite lor_high_low; [reflexivity|lia|].
    change (2 ^ 6) with 64. change (2 ^ 5) with 32. dlia. }
  destruct (Z.ltb_spec c 0x10000).
  { destruct (Z.leb_spec 0xD800 c); destruct (Z.leb_spec c 0xDFFF);
      cbn [andb]; try discriminate; intros <-%Ok_inj; right; right; left;
      (split; [lia|]); (split; [lia|]);
      rewrite !tail6_val, !Z.shiftr_div_pow2 by lia;
      change 0xE0 with (14 * 2 ^ 4); (rewrite lor_high_low; [reflexivity|lia|]);
      change (2 ^ 12) with 4096; change (2 ^ 4) with 16; dlia. }
  destruct (Z.ltb_spec c 0x110000); [|discriminate].
  intros <-%Ok_inj. right; right; right. split; [lia|].
  rewrite !tail6_val, !Z.shiftr_div_pow2 by lia.
  change 0xF0 with (30 * 2 ^ 3). rewrite lor_high_low; [reflexivity|lia|].
  change (2 ^ 18) with 262144. change (2 ^ 3) with 8. dlia.
Qed.

Lemma between_true (lo hi x : Z) : between lo hi x = true -> lo <= x <= hi.
Proof. unfold between. lia. Qed.

Lemma between_false (lo hi x : Z) : between lo hi x = false -> x < lo \/ hi < x.
Proof. unfold between. lia. Qed.

Lemma cp2_val (b0 b1 : Z) : cp2 b0 b1 = b0 mod 32 * 64 + b1 mod 64.
Proof.
  unfold cp2. rewrite low6_val. change 0x1F with (Z.ones 5).
  rewrite Z.land_ones, Z.shiftl_mul_pow2 by lia.
  rewrite lor_high_low; [reflexivity|lia|]. change (2 ^ 6) with 64. dlia.
Qed.

Lemma cp3_val (b0 b1 b2 : Z) :
  cp3 b0 b1 b2 = b0 mod 16 * 4096 + b1 mod 64 * 64 + b2 mod 64.
Proof.
  unfold cp3. rewrite !low6_val. change 0x0F with (Z.ones 4).
  rewrite Z.land_ones, !Z.shiftl_mul_pow2 by lia.
  rewrite (lor_high_low (b1 mod 64) 6) by (change (2 ^ 6) with 64; dlia).
  rewrite lor_high_low; [change (2 ^ 12) with 4096; change (2 ^ 6) with 64;
                         change (2 ^ 4) with 16; lia|lia|].
  change (2 ^ 12) with 4096. change (2 ^ 6) with 64. dlia.
Qed.

Lemma cp4_val (b0 b1 b2 b3 : Z) :
  cp4 b0 b1 b2 b3 =
  b0 mod 8 * 262144 + b1 mod 64 * 4096 + b2 mod 64 * 64 + b3 mod 64.
Proof.
  unfold cp4. rewrite !low6_val. change 0x07 with (Z.ones 3).
  rewrite Z.land_ones, !Z.shiftl_mul_pow2 by lia.
  rewrite (lor_high_low (b2 mod 64) 6) by (change (2 ^ 6) with 64; dlia).
  rewrite (lor_high_low (b1 mod 64) 12)
    by (change (2 ^ 12) with 4096; change (2 ^ 6) with 64; dlia).
  rewrite lor_high_low; [change (2 ^ 18) with 262144; change (2 ^ 12) with 4096;
                         change (2 ^ 6) with 64; change (2 ^ 3) with 8; lia|lia|].
  change (2 ^ 18) with 262144. change (2 ^ 12) with 4096. change (2 ^ 6) with 64.
  dlia.
Qed.

(** The same with the base-64 digits of the code point named. *)
Lemma encode_char_digits (c : Z) (bs : bytes) :
  encode_char c = Ok bs ->
  (0 <= c < 128 /\ bs = [c]) \/
  (exists q r, c = 64 * q + r /\ 2 <= q < 32 /\ 0 <= r < 64 /\
               bs = [192 + q; 128 + r]) \/
  (exists p q r, c = 4096 * p + 64 * q + r /\
                 0 <= p < 16 /\ 0 <= q < 64 /\ 0 <= r < 64 /\
                 2048 <= c /\ ~ (55296 <= c <= 57343) /\
                 bs = [224 + p; 128 + q; 128 + r]) \/
  (exists o p q r, c = 262144 * o + 4096 * p + 64 * q + r /\
                   0 <= o < 8 /\ 0 <= p < 64 /\ 0 <= q < 64 /\ 0 <= r < 64 /\
                   65536 <= c < 1114112 /\
                   bs = [240 + o; 128 + p; 128 + q; 128 + r]).
Proof.
  intros Henc.
  destruct (encode_char_shape c bs Henc)
    as [[Hc ->]|[[Hc ->]|[(Hc & Hs & ->)|[Hc ->]]]].
  - left. auto.
  - right; left. exists (c / 64), (c mod 64).
    repeat split; try reflexivity; dlia.
  - right; right; left. exists (c / 4096), ((c / 64) mod 64), (c mod 64).
    repeat split; try reflexivity; try assumption; dlia.
  - right; right; right.
    exists (c / 262144), ((c / 4096) mod 64), ((c / 64) mod 64), (c mod 64).
    repeat split; try reflexivity; dlia.
Qed.

(** Walks down the decision tree of [decode_ignore], one test at a time,
    closing the branches that the known bounds exclude. *)
Ltac settle_head :=
  unfold is_cont, second_lo, second_hi;
  repeat (cbv iota;
    match goal with
    | |- (if between (if ?a =? ?b then _ else _) _ _ then _ else _) = _ =>
        destruct (Z.eqb_spec a b); try (exfalso; lia)
    | |- (if between _ (if ?a =? ?b then _ else _) _ then _ else _) = _ =>
        destruct (Z.eqb_spec a b); try (exfalso; lia)
    | |- (if between ?lo ?hi ?x then _ else _) = _ =>
        let E := fresh "E" in
        destruct (between lo hi x) eqn:E;
        [apply between_true in E|apply between_false in E];
        try (exfalso; lia)
    end).

(** One encoded character in front of any bytes decodes to itself. *)
Lemma decode_char (c : Z) (bs rest : bytes) :
  encode_char c = Ok bs ->
  decode_ignore (bs ++ rest) = c :: decode_ignore rest.
Proof.
  intros Henc.
  destruct (encode_char_digits c bs Henc)
    as [[Hc ->]|[(q & r & -> & Hq & Hr & ->)
       |[(p & q & r & Hc & Hp & Hq & Hr & Hlo & Hs & ->)
        |(o & p & q & r & Hc & Ho & Hp & Hq & Hr & Hlo & ->)]]];
    cbn [app decode_ignore].
  - settle_head. reflexivity.
  - settle_head. f_equal. rewrite cp2_val.
    replace ((192 + q) mod 32) with q by (clear - Hq; dlia).
    replace ((128 + r) mod 64) with r by (clear - Hr; dlia). lia.
  - assert (Ep : (224 + p) mod 16 = p) by (clear - Hp; dlia).
    assert (Eq : (128 + q) mod 64 = q) by (clear - Hq; dlia).
    assert (Er : (128 + r) mod 64 = r) by (clear - Hr; dlia).
    settle_head; f_equal; rewrite cp3_val, Ep, Eq, Er; lia.
  - assert (Eo : (240 + o) mod 8 = o) by (clear - Ho; dlia).
    assert (Ep : (128 + p) mod 64 = p) by (clear - Hp; dlia).
    assert (Eq : (128 + q) mod 64 = q) by (clear - Hq; dlia).
    assert (Er : (128 + r) mod 64 = r) by (clear - Hr; dlia).
    settle_head; f_equal; rewrite cp4_val, Eo, Ep, Eq, Er; lia.
Qed.

Lemma decode_encode (text : str) (bs : bytes) :
  encode text = Ok bs -> decode_ignore bs = text.
Proof.
  revert bs. induction text as [|c rest IH]; intros bs Henc; cbn [encode] in Henc.
  - apply Ok_inj in Henc as <-. reflexivity.
  - destruct (encode_char c) as [b|e] eqn:Hc; [|discriminate Henc].
    destruct (encode rest) as [tl|e] eqn:Hrest; [|discriminate Henc].
    cbn [bind] in Henc. apply Ok_inj in Henc as <-.
    rewrite (decode_char c b tl Hc). f_equal. now apply IH.
Qed.

Lemma encode_char_bytes (c : Z) (bs : bytes) :
  encode_char c = Ok bs ->
  Forall is_byte bs /\
  exists b0 tl, bs = b0 :: tl /\ (c <> 0 -> 0 < b0).
Proof.
  intros Henc. unfold is_byte.
  destruct (encode_char_shape c bs Henc)
    as [[Hc ->]|[[Hc ->]|[(Hc & Hs & ->)|[Hc ->]]]].
  all: split; [repeat constructor; dlia|].
  all: eexists; eexists; split; [reflexivity|intros; dlia].
Qed.

Lemma encode_bytes (text : str) (bs : bytes) :
  encode text = Ok bs -> Forall is_byte bs.
Proof.
  revert bs. induction text as [|c rest IH]; intros bs Henc; cbn [encode] in Henc.
  - apply Ok_inj in Henc as <-. constructor.
  - destruct (encode_char c) as [b|e] eqn:Hc; [|discriminate Henc].
    destruct (encode rest) as [tl|e] eqn:Hrest; [|discriminate Henc].
    cbn [bind] in Henc. apply Ok_inj in Henc as <-.
    apply Forall_app. split; [apply (encode_char_bytes c b Hc)|now apply IH].
Qed.

(** Every text of scalar values has a UTF-8 form. *)
Lemma encode_scalars (text : str) :
  Forall scalar text -> exists bs, encode text = Ok bs.
Proof.
  induction 1 as [|c rest [Hc Hs] _ [tl IH]]; [now exists []|].
  cbn [encode]. rewrite IH.
  assert (Hchar : exists b, encode_char c = Ok b).
  { unfold encode_char. rewrite Hs.
    destruct (Z.ltb_spec c 0); [lia|].
    destruct (c <? 0x80); [eauto|]. destruct (c <? 0x800); [eauto|].
    destruct (c <? 0x10000); [eauto|].
    destruct (Z.ltb_spec c 0x110000); [eauto|lia]. }
  destruct Hchar as [b ->]. cbn [bind]. eauto.
Qed.

Lemma encode_head (c : Z) (rest : str) (bs : bytes) :
  encode (c :: rest) = Ok bs -> c <> 0 ->
  exists b0 tl, bs = b0 :: tl /\ 0 < b0.
Proof.
  intros Henc Hnz. cbn [encode] in Henc.
  destruct (encode_char c) as [b|e] eqn:Hc; [|discriminate Henc].
  destruct (encode rest) as [tl|e] eqn:Hrest; [|discriminate Henc].
  cbn [bind] in Henc. apply Ok_inj in Henc as <-.
  destruct (encode_char_bytes c b Hc) as (_ & b0 & tl0 & -> & Hpos).
  exists b0, (tl0 ++ tl). split; [reflexivity|auto].
Qed.

End Utf8Facts.

(* ===================================================================== *)
(** ** Bytes and integers *)
(* ===================================================================== *)

Lemma int_from_bytes_snoc (bs : bytes) (b : Z) :
  int_from_bytes (bs ++ [b]) = int_from_bytes bs * 256 + b.
Proof. unfold int_from_bytes. now rewrite fold_left_app. Qed.

Lemma pow256_succ (k : Z) : 0 <= k -> 256 ^ (k + 1) = 256 * 256 ^ k.
Proof. intros Hk. now rewrite Z.pow_add_r, Z.mul_comm by lia. Qed.

Lemma int_from_bytes_bound (bs : bytes) :
  Forall is_byte bs -> 0 <= int_from_bytes bs < 256 ^ len bs.
Proof.
  induction bs as [|b bs IH] using rev_ind; intros Hall; [cbn; lia|].
  apply Forall_app in Hall as [Hbs Hb]. inversion Hb as [|? ? Hb0 _]; subst.
  specialize (IH Hbs). unfold is_byte in Hb0.
  rewrite int_from_bytes_snoc, len_app. change (len [b]) with 1.
  rewrite pow256_succ by apply len_nonneg. lia.
Qed.

Lemma be_bytes_from_bytes (bs : bytes) :
  Forall is_byte bs -> be_bytes (length bs) (int_from_bytes bs) = bs.
Proof.
  induction bs as [|b bs IH] using rev_ind; intros Hall; [reflexivity|].
  apply Forall_app in Hall as [Hbs Hb]. inversion Hb as [|? ? Hb0 _]; subst.
  unfold is_byte in Hb0.
  rewrite length_app, Nat.add_1_r, int_from_bytes_snoc. cbn [be_bytes].
  replace ((int_from_bytes bs * 256 + b) / 256) with (int_from_bytes bs) by dlia.
  replace ((int_from_bytes bs * 256 + b) mod 256) with b by dlia.
  now rewrite IH.
Qed.

Lemma fold_from_bytes (tl : bytes) (acc : Z) :
  fold_left (fun a b => a * 256 + b) tl acc = acc * 256 ^ len tl + int_from_bytes tl.
Proof.
  unfold int_from_bytes. revert acc.
  induction tl as [|b tl IH]; intros acc; cbn [fold_left].
  - change (len (@nil Z)) with 0. lia.
  - rewrite IH, (IH (0 * 256 + b)), len_cons, pow256_succ by apply len_nonneg. lia.
Qed.

Lemma int_from_bytes_cons (b0 : Z) (tl : bytes) :
  int_from_bytes (b0 :: tl) = b0 * 256 ^ len tl + int_from_bytes tl.
Proof.
  unfold int_from_bytes at 1. cbn [fold_left]. now rewrite fold_from_bytes.
Qed.

(** A byte string that starts with a non-zero byte is the shortest one of
    its integer. *)
Lemma int_from_bytes_leading (b0 : Z) (tl : bytes) :
  0 < b0 -> Forall is_byte (b0 :: tl) ->
  2 ^ (8 * len tl) <= int_from_bytes (b0 :: tl) < 2 ^ (8 * len tl + 8).
Proof.
  intros Hpos Hall. pose proof (int_from_bytes_bound (b0 :: tl) Hall) as Hup.
  inversion Hall as [|? ? Hb0 Htl]; subst.
  pose proof (int_from_bytes_bound tl Htl) as Hlow.
  rewrite int_from_bytes_cons in *. rewrite len_cons in Hup.
  pose proof (len_nonneg tl).
  replace (8 * len tl + 8) with (8 * (len tl + 1)) by lia.
  rewrite !(Z.pow_mul_r 2 8) by lia. change (2 ^ 8) with 256. nia.
Qed.

Lemma pow2_exponents (a b n : Z) : 2 ^ a <= n -> n < 2 ^ b -> 0 <= a -> a < b.
Proof.
  intros Ha Hb Hnn. destruct (Z_lt_le_dec a b) as [Hlt|Hle]; [exact Hlt|].
  assert (2 ^ b <= 2 ^ a) by (apply Z.pow_le_mono_r; lia). lia.
Qed.

Lemma len_bin_bit_length (n : Z) : 0 < n -> len (bin n) = bit_length n.
Proof.
  intros Hn. destruct n as [|p|p]; try lia. cbn [bin].
  unfold bit_length. cbn [Z.eqb Z.abs].
  destruct (bin_pos_size p) as (H1 & H2 & H3).
  symmetry. assert (Z.log2 (Z.pos p) = len (bin_pos p) - 1); [|lia].
  apply Z.log2_unique; [lia|].
  replace (Z.succ (len (bin_pos p) - 1)) with (len (bin_pos p)) by lia. lia.
Qed.

Lemma bit_length_leading (b0 : Z) (tl : bytes) :
  0 < b0 -> Forall is_byte (b0 :: tl) ->
  (bit_length (int_from_bytes (b0 :: tl)) + 7) / 8 = len (b0 :: tl).
Proof.
  intros Hpos Hall.
  destruct (int_from_bytes_leading b0 tl Hpos Hall) as [Hlo Hhi].
  set (n := int_from_bytes (b0 :: tl)) in *.
  pose proof (len_nonneg tl) as Hk.
  assert (Hn : 0 < n).
  { assert (0 < 2 ^ (8 * len tl)) by (apply Z.pow_pos_nonneg; lia). lia. }
  unfold bit_length. destruct (Z.eqb_spec n 0); [lia|].
  rewrite Z.abs_eq by lia.
  destruct (Z.log2_spec n Hn) as [Llo Lhi].
  pose proof (Z.log2_nonneg n) as Lnn.
  assert (Z.log2 n < 8 * len tl + 8) by (apply (pow2_exponents _ _ n); lia).
  assert (8 * len tl < Z.succ (Z.log2 n)) by (apply (pow2_exponents _ _ n); lia).
  rewrite len_cons. dlia.
Qed.

(** [bits_to_text] undoes [text_to_bits] on a text whose UTF-8 form starts
    with a non-zero byte, and the bit string has eight digits per byte. *)
Lemma bits_round_trip (text : str) (b0 : Z) (tl : bytes) :
  Utf8.encode text = Ok (b0 :: tl) -> 0 < b0 ->
  exists text_bits,
    text_to_bits text = Ok text_bits /\
    len text_bits = 8 * len (b0 :: tl) /\
    len text_bits = 8 * ((len (bin (int_from_bytes (b0 :: tl))) + 7) / 8) /\
    bits_to_text text_bits = text.
Proof.
  intros Henc Hpos.
  pose proof (Utf8Facts.encode_bytes text _ Henc) as Hall.
  pose proof (bit_length_leading b0 tl Hpos Hall) as Hbl.
  destruct (int_from_bytes_leading b0 tl Hpos Hall) as [Hlo Hhi].
  pose proof (int_from_bytes_bound _ Hall) as Hbound.
  set (bs := b0 :: tl) in *. set (n := int_from_bytes bs) in *.
  pose proof (len_nonneg tl) as Hk.
  assert (Hn : 0 < n).
  { assert (0 < 2 ^ (8 * len tl)) by (apply Z.pow_pos_nonneg; lia). lia. }
  pose proof (len_bin_bit_length n Hn) as Hlen.
  assert (Hbits : 1 <= bit_length n <= 8 * len bs).
  { pose proof (Z.log2_nonneg n). unfold bit_length in Hbl |- *.
    destruct (Z.eqb_spec n 0); [lia|]. rewrite Z.abs_eq in * by lia. dlia. }
  exists (zfill (8 * len bs) (bin n)).
  assert (Hw : 8 * ((len (bin n) + 7) / 8) = 8 * len bs) by (rewrite Hlen, Hbl; lia).
  assert (Hl : len (zfill (8 * len bs) (bin n)) = 8 * len bs).
  { rewrite len_zfill. lia. }
  split; [|split; [exact Hl|split; [lia|]]].
  - unfold text_to_bits. rewrite Henc. cbn [bind]. fold bs. fold n. now rewrite Hw.
  - unfold bits_to_text, bits_to_text_try.
    rewrite int_base2_nonempty.
    2:{ intros Hnil. rewrite Hnil in Hl. change (len (@nil bool)) with 0 in Hl.
        subst bs. rewrite len_cons in Hl. lia. }
    rewrite bits_value_zfill by lia. cbn [bind]. rewrite Hbl.
    unfold to_bytes. destruct (Z.ltb_spec n 0); [lia|].
    destruct (Z.leb_spec (256 ^ len bs) n); [lia|]. cbn [orb bind].
    unfold len. rewrite Nat2Z.id. subst n.
    rewrite (be_bytes_from_bytes bs Hall). now apply Utf8Facts.decode_encode.
Qed.

(* ===================================================================== *)
(** ** Round trip *)
(* ===================================================================== *)

(** Embedding then extracting returns the text when the text is empty or
    does not start with U+0000, on every image with room for the 32 header
    bits and the payload, whose length is that of [bin(n)[2:]] rounded up
    to whole bytes. *)
Theorem round_trip_nonzero_head (img : ndarray) (text : str) (raw : bytes)
  (Hrgb : rgb_array img)
  (Henc : Utf8.encode text = Ok raw)
  (Hhead : text = [] \/ exists c rest, text = c :: rest /\ c <> 0)
  (Hcap : 32 + 8 * ((len (bin (int_from_bytes raw)) + 7) / 8) <= capacity img) :
  exists stego, embed img text = Ok stego /\ decode stego = Ok text.
Proof.
  destruct (rgb_array_capacity img Hrgb) as [Hshape Hlt].
  assert (Hbits : exists text_bits,
             text_to_bits text = Ok text_bits /\
             len text_bits = 8 * ((len (bin (int_from_bytes raw)) + 7) / 8) /\
             bits_to_text text_bits = text).
  { destruct Hhead as [->|(c & rest & -> & Hnz)].
    - apply Ok_inj in Henc as <-. exists (repeat false 8).
      repeat split; reflexivity.
    - destruct (Utf8Facts.encode_head c rest raw Henc Hnz) as (b0 & tl & -> & Hpos).
      destruct (bits_round_trip _ b0 tl Henc Hpos) as (tb & H1 & _ & H3 & H4).
      exists tb. auto. }
  destruct Hbits as (text_bits & Hbits & Hlen & Hback).
  assert (Hhdr : len (length_bits_of text_bits) = 32) by (apply len_length_bits; lia).
  assert (Hfit : len (full_bits_of text_bits) <= capacity img).
  { unfold full_bits_of. rewrite len_app. lia. }
  pose proof (encode_fits img text text_bits Hbits Hshape Hfit) as Hrun.
  eexists. split.
  - unfold embed. rewrite Hrun. reflexivity.
  - rewrite (decode_embed img _ text text_bits Hrgb Hbits).
    + now rewrite Hback.
    + unfold embed. rewrite Hrun. reflexivity.
Qed.

Lemma round_trip_nonzero_head_witness :
  exists stego, embed picture_10x10 hello = Ok stego /\ decode stego = Ok hello.
Proof.
  apply (round_trip_nonzero_head picture_10x10 hello hello).
  - apply blank_rgb_array; unfold MAX_IMAGE_PIXELS; lia.
  - reflexivity.
  - right. exists 104, [101; 108; 108; 111]. split; [reflexivity|lia].
  - vm_compute. discriminate.
Defined.

(** C1 fails on a text that starts with U+0000.  The three-character text
    U+0000 'h' 'i' is valid UTF-8 of three bytes, the 10x10 picture has room
    for it under either reading of the bound, embedding succeeds, and
    extraction returns the two-character text "hi": the payload is only 16
    bits long, because [int.from_bytes] forgets the leading zero byte. *)
Theorem leading_nul_is_lost :
  Utf8.encode [0; 104; 105] = Ok [0; 104; 105] /\
  32 + 8 * ((len (bin (int_from_bytes [0; 104; 105])) + 7) / 8) <= capacity picture_10x10 /\
  32 + 8 * len [0; 104; 105] <= capacity picture_10x10 /\
  (exists text_bits, text_to_bits [0; 104; 105] = Ok text_bits /\ len text_bits = 16) /\
  exists stego,
    embed picture_10x10 [0; 104; 105] = Ok stego /\
    decode stego = Ok [104; 105] /\
    decode stego <> Ok [0; 104; 105].
Proof.
  split; [reflexivity|]. split; [vm_compute; discriminate|].
  split; [vm_compute; discriminate|]. split; [eexists; split; reflexivity|].
  destruct (embed picture_10x10 [0; 104; 105]) as [stego|e] eqn:Hemb;
    [|vm_compute in Hemb; discriminate Hemb].
  exists stego. split; [reflexivity|].
  assert (Hdec : decode stego = Ok [104; 105]).
  { rewrite (decode_embed picture_10x10 stego [0; 104; 105] _
               (blank_rgb_array 10 10 128 ltac:(lia) ltac:(lia)
                  ltac:(unfold MAX_IMAGE_PIXELS; lia) ltac:(lia))
               eq_refl Hemb).
    reflexivity. }
  split; [exact Hdec|]. rewrite Hdec. discriminate.
Qed.

(* ===================================================================== *)
(** ** Capacity *)
(* ===================================================================== *)

Lemma utf8_raises (text : str) (e : exception) :
  Utf8.encode text = Raise e -> e = UnicodeEncodeError.
Proof.
  induction text as [|c rest IH]; cbn [Utf8.encode]; [discriminate|].
  destruct (Utf8.encode_char c) as [b|e1] eqn:Hc.
  - destruct (Utf8.encode rest) as [tl|e2]; cbn [bind]; [discriminate|].
    intros [= <-]. now apply IH.
  - cbn [bind]. intros [= <-]. unfold Utf8.encode_char in Hc.
    repeat match type of Hc with
           | (if ?b then _ else _) = _ => destruct b
           end; congruence.
Qed.

Lemma text_to_bits_raises (text : str) (e : exception) :
  text_to_bits text = Raise e -> e = UnicodeEncodeError.
Proof.
  unfold text_to_bits. destruct (Utf8.encode text) as [raw|e1] eqn:Henc;
    cbn [bind]; [discriminate|].
  intros [= <-]. exact (utf8_raises text e1 Henc).
Qed.

(** The payload is a whole number of bytes. *)
Lemma len_text_bits (text : str) (text_bits : bitstr) :
  text_to_bits text = Ok text_bits -> len text_bits mod 8 = 0.
Proof.
  unfold text_to_bits. destruct (Utf8.encode text) as [raw|e]; cbn [bind];
    [|discriminate].
  intros <-%Ok_inj. rewrite len_zfill.
  pose proof (len_nonneg (bin (int_from_bytes raw))). dlia.
Qed.

Lemma embed_too_long_inv (img : ndarray) (m : str) (cap needed : Z) :
  len (flat img) = capacity img ->
  embed img m = Raise (ValueError_too_long cap needed) ->
  exists text_bits,
    text_to_bits m = Ok text_bits /\ needed = len (full_bits_of text_bits).
Proof.
  intros Hshape Hemb. unfold embed in Hemb.
  destruct (text_to_bits m) as [text_bits|e] eqn:Hbits.
  - exists text_bits. split; [reflexivity|].
    destruct (Z_le_gt_dec (len (full_bits_of text_bits)) (capacity img)) as [Hfit|Hover].
    + rewrite (encode_fits img m text_bits Hbits Hshape Hfit) in Hemb.
      discriminate Hemb.
    + rewrite (encode_too_long img m text_bits Hbits) in Hemb by lia.
      cbn [snd] in Hemb. congruence.
  - unfold encode in Hemb. rewrite Hbits in Hemb. cbn [snd] in Hemb.
    apply text_to_bits_raises in Hbits. congruence.
Qed.

(** C4 (as amended).  Embedding succeeds whenever 32 plus the payload
    length is at most the capacity, in particular when the two are equal.
    When it exceeds the capacity, [encode] raises the too-long error and
    leaves the buffer as it was, and for a payload shorter than [2^32] bits
    the error carries the capacity and 32 plus the payload length.  The
    payload length is a multiple of 8: on the 10x10 picture a message of
    34 one-byte characters (272 payload bits) is refused with 304 against
    300. *)
Theorem encode_capacity_boundary (img : ndarray) (m : str) (text_bits : bitstr)
  (Hrgb : rgb_array img)
  (Hbits : text_to_bits m = Ok text_bits) :
  (32 + len text_bits <= capacity img ->
     exists stego, encode img m = (flat stego, Ok stego)) /\
  (capacity img < 32 + len text_bits ->
     exists needed,
       encode img m = (flat img, Raise (ValueError_too_long (capacity img) needed))) /\
  (capacity img < 32 + len text_bits -> len text_bits < 2 ^ 32 ->
     encode img m =
       (flat img, Raise (ValueError_too_long (capacity img) (32 + len text_bits)))) /\
  len text_bits mod 8 = 0 /\
  encode picture_10x10 (repeat 97 34) =
    (flat picture_10x10, Raise (ValueError_too_long 300 304)).
Proof.
  destruct (rgb_array_capacity img Hrgb) as [Hshape Hlt].
  assert (Hfull : len (full_bits_of text_bits) =
                  len (length_bits_of text_bits) + len text_bits).
  { unfold full_bits_of. now rewrite len_app. }
  pose proof (len_length_bits_ge text_bits) as Hge.
  split; [|split; [|split; [|split]]].
  - intros Hfit.
    assert (Hhdr : len (length_bits_of text_bits) = 32) by (apply len_length_bits; lia).
    exists (mk_ndarray (height img) (width img)
              (stamp (flat img) (map Z.b2z (full_bits_of text_bits)))).
    rewrite (encode_fits img m text_bits Hbits Hshape) by lia.
    reflexivity.
  - intros Hover. exists (len (full_bits_of text_bits)).
    apply encode_too_long; [exact Hbits|lia].
  - intros Hover Hsmall.
    rewrite (encode_too_long img m text_bits Hbits) by lia.
    now rewrite Hfull, len_length_bits by exact Hsmall.
  - exact (len_text_bits m text_bits Hbits).
  - reflexivity.
Qed.

Lemma encode_capacity_boundary_witness :
  rgb_array picture_4x4 /\
  text_to_bits [104; 105] = Ok (false :: bin 0x6869) /\
  32 + len (false :: bin 0x6869) = capacity picture_4x4 /\
  exists stego, encode picture_4x4 [104; 105] = (flat stego, Ok stego).
Proof.
  assert (Hrgb : rgb_array picture_4x4).
  { apply blank_rgb_array; unfold MAX_IMAGE_PIXELS; lia. }
  assert (Hbits : text_to_bits [104; 105] = Ok (false :: bin 0x6869)) by reflexivity.
  assert (Hcap : 32 + len (false :: bin 0x6869) = capacity picture_4x4) by reflexivity.
  split; [exact Hrgb|]. split; [exact Hbits|]. split; [exact Hcap|].
  apply (proj1 (encode_capacity_boundary picture_4x4 [104; 105] _ Hrgb Hbits)).
  rewrite Hcap. lia.
Defined.

(** C4 (as stated) fails in its example: no message has a payload of 270
    bits, and on the 10x10 picture, of capacity 300, no message makes
    [encode] report 302 required bits. *)
Lemma no_message_needs_302_bits :
  capacity picture_10x10 = 300 /\
  ~ (exists m text_bits, text_to_bits m = Ok text_bits /\ len text_bits = 270) /\
  ~ (exists m, embed picture_10x10 m = Raise (ValueError_too_long 300 302)).
Proof.
  split; [reflexivity|]. split.
  - intros (m & text_bits & Hbits & Hlen).
    apply len_text_bits in Hbits. rewrite Hlen in Hbits. discriminate Hbits.
  - intros (m & Hemb).
    destruct (embed_too_long_inv picture_10x10 m 300 302 eq_refl Hemb)
      as (text_bits & Hbits & Hneed).
    unfold full_bits_of in Hneed. rewrite len_app in Hneed.
    pose proof (len_length_bits_ge text_bits) as Hge.
    pose proof (len_nonneg text_bits) as Hnn.
    assert (Hsmall : len text_bits < 2 ^ 32) by lia.
    rewrite (len_length_bits text_bits Hsmall) in Hneed.
    apply len_text_bits in Hbits. dlia.
Qed.

(* ===================================================================== *)
(** ** Payloads of [2^32] bits and more *)
(* ===================================================================== *)

Lemma utf8_letters (n : nat) : Utf8.encode (repeat 97 n) = Ok (repeat 97 n).
Proof.
  induction n as [|n IH]; [reflexivity|].
  cbn [repeat Utf8.encode]. rewrite IH. reflexivity.
Qed.

Lemma text_to_bits_letters (n : Z) :
  0 < n ->
  exists text_bits,
    text_to_bits (letters n) = Ok text_bits /\ len text_bits = 8 * n.
Proof.
  intros Hn. unfold letters.
  assert (E : Z.to_nat n = S (Z.to_nat (n - 1))) by lia.
  rewrite E. cbn [repeat].
  destruct (bits_round_trip (97 :: repeat 97 (Z.to_nat (n - 1))) 97
              (repeat 97 (Z.to_nat (n - 1))))
    as (text_bits & Hbits & Hlen & _).
  - exact (utf8_letters (S (Z.to_nat (n - 1)))).
  - lia.
  - exists text_bits. split; [exact Hbits|].
    rewrite Hlen, len_cons, len_repeat. lia.
Qed.

(** A text of [2^29] one-byte characters has a payload of [2^32] bits,
    whose length does not fit 32 binary digits: [zfill] leaves the 33
    digits of the numeral as they are, and [encode] counts them. *)
Lemma header_of_huge_payload :
  exists text_bits,
    text_to_bits (letters (2 ^ 29)) = Ok text_bits /\
    len text_bits = 2 ^ 32 /\
    len (length_bits_of text_bits) = 33 /\
    encode (blank 1 1 0) (letters (2 ^ 29)) =
      (flat (blank 1 1 0), Raise (ValueError_too_long 3 (33 + 2 ^ 32))).
Proof.
  destruct (text_to_bits_letters (2 ^ 29) eq_refl) as (text_bits & Hbits & Hlen).
  change (8 * 2 ^ 29) with (2 ^ 32) in Hlen.
  assert (Hhdr : len (length_bits_of text_bits) = 33).
  { unfold length_bits_of. rewrite Hlen. reflexivity. }
  exists text_bits. split; [exact Hbits|]. split; [exact Hlen|].
  split; [exact Hhdr|].
  assert (Hfull : len (full_bits_of text_bits) = 33 + 2 ^ 32).
  { unfold full_bits_of. rewrite len_app, Hhdr, Hlen. reflexivity. }
  rewrite (encode_too_long (blank 1 1 0) (letters (2 ^ 29)) text_bits Hbits).
  - rewrite Hfull. reflexivity.
  - rewrite Hfull. reflexivity.
Qed.

(* ===================================================================== *)
(** ** The codec on its own *)
(* ===================================================================== *)

Lemma int_from_bytes_zero_head (bs : bytes) :
  int_from_bytes (0 :: bs) = int_from_bytes bs.
Proof. reflexivity. Qed.

Lemma text_to_bits_nul_head (text : str) :
  text_to_bits (0 :: text) = text_to_bits text.
Proof.
  unfold text_to_bits. cbn [Utf8.encode].
  change (Utf8.encode_char 0) with (@Ok bytes [0]). cbn [bind].
  destruct (Utf8.encode text) as [raw|e]; cbn [bind app]; [|reflexivity].
  now rewrite int_from_bytes_zero_head.
Qed.

Lemma encode_tail (c : Z) (rest : str) (raw : bytes) :
  Utf8.encode (c :: rest) = Ok raw -> exists tl, Utf8.encode rest = Ok tl.
Proof.
  cbn [Utf8.encode]. destruct (Utf8.encode_char c); [|discriminate].
  cbn [bind]. destruct (Utf8.encode rest) as [tl|e]; [eauto|discriminate].
Qed.

Lemma codec_lstrip (text : str) (raw : bytes) :
  Utf8.encode text = Ok raw ->
  exists text_bits,
    text_to_bits text = Ok text_bits /\ bits_to_text text_bits = lstrip_nul text.
Proof.
  revert raw. induction text as [|c rest IH]; intros raw Henc.
  - exists (repeat false 8). split; reflexivity.
  - cbn [lstrip_nul]. destruct (Z.eqb_spec c 0) as [->|Hnz].
    + rewrite text_to_bits_nul_head.
      destruct (encode_tail 0 rest raw Henc) as [tl Htl]. exact (IH tl Htl).
    + destruct (Utf8Facts.encode_head c rest raw Henc Hnz) as (b0 & tl & -> & Hpos).
      destruct (bits_round_trip _ b0 tl Henc Hpos) as (tb & H1 & _ & _ & H4).
      exists tb. auto.
Qed.

(** X1.  The payload of [text_to_bits] is a whole, positive number of
    bytes and never longer than the UTF-8 form of the text, except that
    the empty text takes eight bits; it is exactly as long as the UTF-8
    form when that starts with a non-zero byte. *)
Theorem text_to_bits_length (text : str) (raw : bytes) (text_bits : bitstr)
  (Henc : Utf8.encode text = Ok raw)
  (Hbits : text_to_bits text = Ok text_bits) :
  8 <= len text_bits /\
  len text_bits mod 8 = 0 /\
  len text_bits <= 8 * Z.max 1 (len raw) /\
  (forall b0 tl, raw = b0 :: tl -> 0 < b0 -> len text_bits = 8 * len raw).
Proof.
  pose proof (Utf8Facts.encode_bytes text raw Henc) as Hall.
  pose proof (int_from_bytes_bound raw Hall) as Hbound.
  pose proof (len_nonneg raw) as Hraw.
  unfold text_to_bits in Hbits. rewrite Henc in Hbits. cbn [bind] in Hbits.
  apply Ok_inj in Hbits as <-. rewrite len_zfill.
  set (n := int_from_bytes raw) in *.
  assert (Hdigits : 1 <= len (bin n) <= 8 * Z.max 1 (len raw)).
  { split.
    - destruct n as [|p|p]; [cbn; lia|apply (bin_pos_size p)|lia].
    - apply len_bin_bound; [|lia]. split; [lia|].
      apply Z.lt_le_trans with (256 ^ len raw); [lia|].
      change 256 with (2 ^ 8). rewrite <- Z.pow_mul_r by lia.
      apply Z.pow_le_mono_r; lia. }
  repeat split; try dlia.
  intros b0 tl -> Hpos.
  destruct (bits_round_trip text b0 tl Henc Hpos) as (tb & Htb & Hlen & _).
  unfold text_to_bits in Htb. rewrite Henc in Htb. cbn [bind] in Htb.
  apply Ok_inj in Htb. fold n in Htb. rewrite <- Htb in Hlen.
  rewrite len_zfill in Hlen. exact Hlen.
Qed.

Lemma text_to_bits_length_witness :
  len (false :: bin 0x68656C6C6F) = 8 * len hello.
Proof.
  exact (proj2 (proj2 (proj2
    (text_to_bits_length hello hello (false :: bin 0x68656C6C6F) eq_refl eq_refl)))
    104 [101; 108; 108; 111] eq_refl eq_refl).
Defined.

(** X2.  A leading U+0000 is invisible: the text with it and the text
    without it have the same payload, and [encode] does the same with
    both on every image. *)
Theorem leading_nul_is_invisible (img : ndarray) (text : str) :
  text_to_bits (0 :: text) = text_to_bits text /\
  encode img (0 :: text) = encode img text.
Proof.
  split; [apply text_to_bits_nul_head|].
  unfold encode. now rewrite text_to_bits_nul_head.
Qed.

(** X3.  [bits_to_text] after [text_to_bits] returns the text without its
    leading U+0000 characters, for every text that [str.encode] accepts;
    in particular the text itself when it does not start with U+0000. *)
Theorem codec_round_trip (text : str) (raw : bytes)
  (Henc : Utf8.encode text = Ok raw) :
  exists text_bits,
    text_to_bits text = Ok text_bits /\
    bits_to_text text_bits = lstrip_nul text /\
    ((forall c rest, text = c :: rest -> c <> 0) -> bits_to_text text_bits = text).
Proof.
  destruct (codec_lstrip text raw Henc) as (tb & Hbits & Hback).
  exists tb. repeat split; try assumption.
  intros Hhead. rewrite Hback. destruct text as [|c rest]; [reflexivity|].
  cbn [lstrip_nul]. specialize (Hhead c rest eq_refl).
  destruct (Z.eqb_spec c 0); [contradiction|reflexivity].
Qed.

Lemma codec_round_trip_witness :
  exists text_bits,
    text_to_bits [0; 0; 104; 105] = Ok text_bits /\
    bits_to_text text_bits = [104; 105].
Proof.
  destruct (codec_round_trip [0; 0; 104; 105] [0; 0; 104; 105] eq_refl)
    as (tb & Hbits & Hback & _).
  exists tb. split; [exact Hbits|exact Hback].
Defined.

(** X4.  Whenever [encode] saves an image, [decode] of that image returns
    the embedded text without its leading U+0000 characters. *)
Theorem decode_embed_lstrip (img stego : ndarray) (text : str)
  (Hrgb : rgb_array img)
  (Hemb : embed img text = Ok stego) :
  decode stego = Ok (lstrip_nul text).
Proof.
  destruct (embed_inv img stego text Hrgb Hemb) as (tb & Hbits & _).
  assert (Henc : exists raw, Utf8.encode text = Ok raw).
  { unfold text_to_bits in Hbits.
    destruct (Utf8.encode text) as [raw|e]; [eauto|discriminate Hbits]. }
  destruct Henc as [raw Henc].
  destruct (codec_lstrip text raw Henc) as (tb' & Hbits' & Hback).
  rewrite Hbits in Hbits'. apply Ok_inj in Hbits' as <-.
  rewrite (decode_embed img stego text tb Hrgb Hbits Hemb). now rewrite Hback.
Qed.

Lemma decode_embed_lstrip_witness :
  exists stego,
    embed picture_10x10 [0; 0; 104; 105] = Ok stego /\
    decode stego = Ok [104; 105].
Proof.
  destruct (embed picture_10x10 [0; 0; 104; 105]) as [stego|e] eqn:Hemb;
    [|vm_compute in Hemb; discriminate Hemb].
  exists stego. split; [reflexivity|].
  apply (decode_embed_lstrip picture_10x10 stego [0; 0; 104; 105]);
    [apply blank_rgb_array; unfold MAX_IMAGE_PIXELS; lia|exact Hemb].
Defined.

Lemma bits_value_nonneg (s : bitstr) : 0 <= bits_value s.
Proof.
  induction s as [|b s IH] using rev_ind; [cbn; lia|].
  rewrite bits_value_snoc. destruct b; cbn [Z.b2z]; lia.
Qed.

Lemma fits_own_bit_length (n : Z) : 0 <= n -> n < 256 ^ ((bit_length n + 7) / 8).
Proof.
  intros Hn. unfold bit_length. destruct (Z.eqb_spec n 0) as [->|Hnz]; [reflexivity|].
  rewrite Z.abs_eq by lia.
  assert (Hpos : 0 < n) by lia.
  destruct (Z.log2_spec n Hpos) as [_ Hlt]. pose proof (Z.log2_nonneg n) as Hl.
  set (k := (Z.log2 n + 1 + 7) / 8).
  assert (Hk : Z.succ (Z.log2 n) <= 8 * k) by (subst k; dlia).
  change 256 with (2 ^ 8). rewrite <- Z.pow_mul_r by lia.
  apply Z.lt_le_trans with (2 ^ Z.succ (Z.log2 n)); [exact Hlt|].
  apply Z.pow_le_mono_r; lia.
Qed.

Lemma bits_to_text_try_nonempty (bits : bitstr) :
  bits <> [] ->
  bits_to_text_try bits =
    Ok (Utf8.decode_ignore
          (be_bytes (Z.to_nat ((bit_length (bits_value bits) + 7) / 8))
                    (bits_value bits))).
Proof.
  intros Hne. unfold bits_to_text_try. rewrite int_base2_nonempty by exact Hne.
  cbn [bind]. unfold to_bytes.
  pose proof (bits_value_nonneg bits) as Hnn.
  pose proof (fits_own_bit_length _ Hnn) as Hfit.
  destruct (Z.ltb_spec (bits_value bits) 0); [lia|].
  destruct (Z.leb_spec (256 ^ ((bit_length (bits_value bits) + 7) / 8))
                       (bits_value bits)); [lia|].
  reflexivity.
Qed.

(** X5.  The [try] of [bits_to_text] fails on the empty bit string only,
    with the [ValueError] of [int('', 2)]: the byte count passed to
    [to_bytes] always fits the number, so the handler string is returned
    for the empty string and for nothing else that raises. *)
Theorem bits_to_text_handler (bits : bitstr) :
  (forall e, bits_to_text_try bits = Raise e <->
             bits = [] /\ e = ValueError_int_literal) /\
  ((exists s, bits_to_text_try bits = Ok s /\ bits_to_text bits = s) <-> bits <> []) /\
  bits_to_text [] = DECODE_ERROR.
Proof.
  split; [|split; [|reflexivity]].
  - intros e. split.
    + intros Hraise. destruct bits as [|b bits].
      * cbn in Hraise. split; congruence.
      * rewrite bits_to_text_try_nonempty in Hraise by discriminate.
        discriminate Hraise.
    + intros [-> ->]. reflexivity.
  - split.
    + intros (s & Hok & _) ->. discriminate Hok.
    + intros Hne. eexists. unfold bits_to_text.
      rewrite (bits_to_text_try_nonempty bits Hne). split; reflexivity.
Qed.

(** X6.  [decode] on short arrays: on an array without samples the
    header string is empty and [int] raises; on an array of 1 to 31
    samples the no-marker string is returned whatever the samples are; on
    every array with at least one sample [decode] returns a string. *)
Theorem decode_short_arrays (img : ndarray) :
  (flat img = [] -> decode img = Raise ValueError_int_literal) /\
  (flat img <> [] -> len (flat img) < 32 -> decode img = Ok NO_MARKER) /\
  (flat img <> [] -> exists s, decode img = Ok s).
Proof.
  assert (Hhdr : flat img <> [] ->
                 read_header img = Ok (bits_value (firstn 32 (lsbs img)))).
  { intros Hne. rewrite read_header_lsbs. apply int_base2_nonempty.
    unfold lsbs, join_bits. destruct (flat img); [congruence|discriminate]. }
  split; [|split].
  - intros Hnil. unfold decode, decode_branch. rewrite Hnil. reflexivity.
  - intros Hne Hshort. unfold decode.
    rewrite decode_branch_lsbs, (Hhdr Hne). cbn [bind]. unfold header_len.
    pose proof (bits_value_nonneg (firstn 32 (lsbs img))).
    destruct (bits_value (firstn 32 (lsbs img)) >? len (flat img) - 32) eqn:E; [|lia].
    reflexivity.
  - intros Hne. unfold decode. rewrite decode_branch_lsbs, (Hhdr Hne). cbn [bind].
    destruct (_ >? _); cbn [bind]; eauto.
Qed.

Lemma scalar_of_encode_char (c : Z) (bs : bytes) :
  Utf8.encode_char c = Ok bs -> Utf8.scalar c.
Proof.
  intros Henc. unfold Utf8.scalar, Utf8.is_surrogate.
  destruct (Utf8Facts.encode_char_shape c bs Henc)
    as [[Hc _]|[[Hc _]|[(Hc & Hs & _)|[Hc _]]]]; lia.
Qed.

Lemma scalars_of_encode (text : str) (raw : bytes) :
  Utf8.encode text = Ok raw -> Forall Utf8.scalar text.
Proof.
  revert raw. induction text as [|c rest IH]; intros raw Henc; [constructor|].
  cbn [Utf8.encode] in Henc.
  destruct (Utf8.encode_char c) as [b|e] eqn:Hc; [|discriminate Henc].
  destruct (Utf8.encode rest) as [tl|e] eqn:Hrest; [|discriminate Henc].
  constructor; [exact (scalar_of_encode_char c b Hc)|exact (IH tl eq_refl)].
Qed.

Lemma text_to_bits_scalars (text : str) :
  (exists text_bits, text_to_bits text = Ok text_bits) <-> Forall Utf8.scalar text.
Proof.
  unfold text_to_bits. split.
  - intros [tb Htb]. destruct (Utf8.encode text) as [raw|e] eqn:Henc;
      [exact (scalars_of_encode text raw Henc)|discriminate Htb].
  - intros Hs. destruct (Utf8Facts.encode_scalars text Hs) as [raw ->].
    cbn [bind]. eauto.
Qed.

(** The exceptions of [encode] before anything is saved, on a loaded
    image: [UnicodeEncodeError] exactly for a text with a character that
    is no Unicode scalar value (a lone surrogate); any other one is the
    too-long error with the capacity and a larger required count; the
    assignment of line 56 never fails; and with each of them the buffer is
    as it was. *)
Lemma encode_raises_before_save (img : ndarray) (text : str) (Hrgb : rgb_array img) :
  (embed img text = Raise UnicodeEncodeError <-> ~ Forall Utf8.scalar text) /\
  (forall e, embed img text = Raise e ->
     fst (encode img text) = flat img /\
     (e = UnicodeEncodeError \/
      exists needed, e = ValueError_too_long (capacity img) needed /\
                     capacity img < needed)) /\
  (forall stego, embed img text = Ok stego -> Forall Utf8.scalar text).
Proof.
  destruct (rgb_array_capacity img Hrgb) as [Hshape _].
  unfold embed.
  destruct (text_to_bits text) as [tb|e0] eqn:Hbits.
  - assert (Hs : Forall Utf8.scalar text) by (apply text_to_bits_scalars; eauto).
    destruct (Z_le_gt_dec (len (full_bits_of tb)) (capacity img)) as [Hfit|Hover].
    + rewrite (encode_fits img text tb Hbits Hshape Hfit). cbn [fst snd].
      repeat split; try discriminate; try tauto; intros; auto.
    + rewrite (encode_too_long img text tb Hbits) by lia. cbn [fst snd].
      split; [split; [discriminate|tauto]|]. split; [|discriminate].
      intros e [= <-]. split; [reflexivity|]. right. eexists. split; [reflexivity|lia].
  - pose proof (text_to_bits_raises text e0 Hbits) as ->.
    assert (Hn : ~ Forall Utf8.scalar text).
    { intros Hs. apply text_to_bits_scalars in Hs as [tb Htb]. congruence. }
    unfold encode. rewrite Hbits. cbn [fst snd].
    split; [tauto|]. split; [|discriminate].
    intros e [= <-]. auto.
Qed.

(** X7.  The ways a whole call of [encode] ends on a loaded image,
    whatever [new_img.save] does.  For a text with a character that is no
    Unicode scalar value (a lone surrogate) it raises
    [UnicodeEncodeError] and the buffer is as it was.  For a text of
    scalar values whose 32 header bits and payload exceed the capacity it
    raises the too-long error with the capacity and a larger required
    count, and the buffer is as it was.  For every other text the
    assignment of line 56 does not fail, the buffer holds the stamped
    array, and the call returns the path of [saved_path] when
    [new_img.save] succeeds and raises what [new_img.save] raises
    otherwise, the buffer being stamped in both cases. *)
Theorem encode_to_file_outcomes {E : Type} (save : str -> ndarray -> option E)
  (img : ndarray) (text output_path : str) (Hrgb : rgb_array img) :
  (~ Forall Utf8.scalar text /\
   encode_to_file save img text output_path = (flat img, Raised UnicodeEncodeError)) \/
  (exists text_bits needed,
     text_to_bits text = Ok text_bits /\
     capacity img < 32 + len text_bits /\ capacity img < needed /\
     encode_to_file save img text output_path =
       (flat img, Raised (ValueError_too_long (capacity img) needed))) \/
  (exists text_bits stego,
     text_to_bits text = Ok text_bits /\
     32 + len text_bits <= capacity img /\
     embed img text = Ok stego /\
     flat stego = stamp (flat img) (map Z.b2z (full_bits_of text_bits)) /\
     encode_to_file save img text output_path =
       (flat stego,
        match save (saved_path output_path) stego with
        | Some err => Save_raised err
        | None => Returned (saved_path output_path)
        end)).
Proof.
  destruct (rgb_array_capacity img Hrgb) as [Hshape Hlt].
  unfold encode_to_file, embed.
  destruct (text_to_bits text) as [tb|e0] eqn:Hbits.
  - pose proof (len_length_bits_ge tb) as Hge.
    assert (Hfull : len (full_bits_of tb) = len (length_bits_of tb) + len tb).
    { unfold full_bits_of. now rewrite len_app. }
    destruct (Z_le_gt_dec (32 + len tb) (capacity img)) as [Hfit|Hover].
    + right; right.
      assert (Hhdr : len (length_bits_of tb) = 32) by (apply len_length_bits; lia).
      rewrite (encode_fits img text tb Hbits Hshape) by lia.
      exists tb, (mk_ndarray (height img) (width img)
                    (stamp (flat img) (map Z.b2z (full_bits_of tb)))).
      cbn [snd flat]. repeat split; try reflexivity; try assumption.
      destruct (save _ _); reflexivity.
    + right; left.
      rewrite (encode_too_long img text tb Hbits) by lia.
      exists tb, (len (full_bits_of tb)).
      repeat split; try reflexivity; lia.
  - left. pose proof (text_to_bits_raises text e0 Hbits) as ->.
    split.
    + intros Hs. apply text_to_bits_scalars in Hs as [tb Htb]. congruence.
    + unfold encode. rewrite Hbits. reflexivity.
Qed.

(** A file name without a stem, as [".png"] is, is refused by
    [new_img.save] after the buffer has been stamped. *)
Lemma encode_to_file_outcomes_witness :
  exists stego,
    embed picture_10x10 hello = Ok stego /\
    flat stego <> flat picture_10x10 /\
    encode_to_file save_with_stem picture_10x10 hello PNG =
      (flat stego, Save_raised tt) /\
    encode_to_file save_with_stem picture_10x10 hello hello =
      (flat stego, Returned (hello ++ PNG)).
Proof.
  assert (Hrgb : rgb_array picture_10x10).
  { apply blank_rgb_array; unfold MAX_IMAGE_PIXELS; lia. }
  destruct (encode_to_file_outcomes save_with_stem picture_10x10 hello PNG Hrgb)
    as [[Hn _]|[(tb & needed & Hbits & Hover & _)|(tb & stego & Hbits & _ & Hemb & Hflat & Hend)]].
  - exfalso. apply Hn. apply (scalars_of_encode hello hello). reflexivity.
  - exfalso. apply Ok_inj in Hbits. subst tb. vm_compute in Hover. discriminate Hover.
  - exists stego. split; [exact Hemb|]. apply Ok_inj in Hbits. subst tb.
    split; [rewrite Hflat; vm_compute; discriminate|].
    split; [exact Hend|].
    unfold encode_to_file. unfold embed in Hemb.
    destruct (encode picture_10x10 hello) as [buf [a|e]] eqn:Hrun;
      cbn [snd] in Hemb; [|discriminate Hemb].
    apply Ok_inj in Hemb. subst a.
    assert (Hbuf : buf = flat stego).
    { apply (f_equal fst) in Hrun. cbn [fst] in Hrun. rewrite <- Hrun, Hflat.
      reflexivity. }
    rewrite Hbuf. reflexivity.
Defined.

(** X8.  A text whose UTF-8 form has [k] bytes and does not start with a
    zero byte is embedded exactly when [32 + 8 * k] is at most the
    capacity [width * height * 3]. *)
Theorem embed_fits_iff (img : ndarray) (text : str) (b0 : Z) (tl : bytes)
  (Hrgb : rgb_array img)
  (Henc : Utf8.encode text = Ok (b0 :: tl))
  (Hpos : 0 < b0) :
  (exists stego, embed img text = Ok stego) <->
  32 + 8 * len (b0 :: tl) <= capacity img.
Proof.
  destruct (rgb_array_capacity img Hrgb) as [Hshape Hlt].
  destruct (bits_round_trip text b0 tl Henc Hpos) as (tb & Hbits & Hlen & _).
  split.
  - intros [stego Hemb].
    destruct (embed_inv img stego text Hrgb Hemb) as (tb' & Hbits' & _ & Hfit & _).
    rewrite Hbits in Hbits'. apply Ok_inj in Hbits' as <-. lia.
  - intros Hfit.
    assert (Hhdr : len (length_bits_of tb) = 32) by (apply len_length_bits; lia).
    eexists. unfold embed. rewrite (encode_fits img text tb Hbits Hshape).
    + reflexivity.
    + unfold full_bits_of. rewrite len_app. lia.
Qed.

Lemma embed_fits_iff_witness :
  (exists stego, embed picture_10x10 hello = Ok stego) <->
  32 + 8 * len hello <= capacity picture_10x10.
Proof.
  apply (embed_fits_iff picture_10x10 hello 104 [101; 108; 108; 111]).
  - apply blank_rgb_array; unfold MAX_IMAGE_PIXELS; lia.
  - reflexivity.
  - lia.
Defined.

(* ===================================================================== *)
(** ** The saved image as an image *)
(* ===================================================================== *)

Lemma high7_close (x y : Z) :
  high7 y = high7 x -> 0 <= x < 256 -> 0 <= y < 256 /\ (x - y) ^ 2 <= 1.
Proof.
  unfold high7. rewrite !Z.shiftr_div_pow2 by lia. change (2 ^ 1) with 2.
  intros Heq Hx. assert (Hd : -1 <= x - y <= 1) by dlia.
  split; [dlia|]. rewrite Z.pow_2_r. nia.
Qed.

Lemma stamp_uint8 (flat_array bit_list : list Z) :
  Forall (fun x => 0 <= x < 256) flat_array ->
  Forall (fun b => b = 0 \/ b = 1) bit_list ->
  Forall (fun x => 0 <= x < 256) (stamp flat_array bit_list).
Proof.
  intros Hu8 Hbits. pose proof (stamp_high7 flat_array bit_list Hu8 Hbits) as H2.
  induction H2 as [|x y xs ys Hxy _ IH]; [constructor|].
  inversion Hu8 as [|? ? Hx Hxs]; subst.
  constructor; [exact (proj1 (high7_close x y Hxy Hx))|exact (IH Hxs)].
Qed.



(** X9.  The array that [encode] saves is again an array as [Image.open]
    delivers them, of the height and width of the original: its samples
    are still bytes. *)
Theorem embed_keeps_rgb_array (img stego : ndarray) (m : str)
  (Hrgb : rgb_array img)
  (Hemb : embed img m = Ok stego) :
  rgb_array stego /\ height stego = height img /\ width stego = width img.
Proof.
  destruct (embed_inv img stego m Hrgb Hemb) as (tb & _ & _ & _ & ->).
  destruct Hrgb as [Hh Hw Hpix Hshape Hu8].
  split; [|split; reflexivity].
  constructor; cbn [height width flat]; try assumption.
  - unfold len in *. now rewrite stamp_length.
  - apply stamp_uint8; [exact Hu8|apply b2z_bits].
Qed.

Lemma embed_keeps_rgb_array_witness :
  exists stego, embed picture_10x10 hello = Ok stego /\ rgb_array stego.
Proof.
  destruct (embed picture_10x10 hello) as [stego|e] eqn:Hemb;
    [|vm_compute in Hemb; discriminate Hemb].
  exists stego. split; [reflexivity|].
  apply (embed_keeps_rgb_array picture_10x10 stego hello);
    [apply blank_rgb_array; unfold MAX_IMAGE_PIXELS; lia|exact Hemb].
Defined.



(* ===================================================================== *)
(** ** More on PSNR *)
(* ===================================================================== *)

Lemma broadcast_dim_sym (a b : Z) : broadcast_dim a b = broadcast_dim b a.
Proof.
  unfold broadcast_dim.
  destruct (Z.eqb_spec a b), (Z.eqb_spec b a), (Z.eqb_spec a 1), (Z.eqb_spec b 1);
    subst; try reflexivity; congruence.
Qed.

Lemma squared_error_sym (img1 img2 : ndarray) (h w : Z) :
  squared_error img1 img2 h w = squared_error img2 img1 h w.
Proof.
  unfold squared_error. f_equal.
  apply flat_map_ext. intros i. apply flat_map_ext. intros j.
  apply map_ext. intros c. rewrite !Z.pow_2_r. ring.
Qed.

(** X11.  PSNR symmetry: [calculate_psnr] gives the same result, value or
    exception, with its two arguments exchanged. *)
Theorem psnr_symmetric (img1 img2 : ndarray) :
  calculate_psnr img1 img2 = calculate_psnr img2 img1.
Proof.
  unfold calculate_psnr.
  rewrite (broadcast_dim_sym (height img1)), (broadcast_dim_sym (width img1)).
  destruct (broadcast_dim (height img2) (height img1)) as [h|e]; [|reflexivity].
  destruct (broadcast_dim (width img2) (width img1)) as [w|e]; [|reflexivity].
  cbn [bind]. now rewrite squared_error_sym.
Qed.

Lemma len_range (n : Z) : 0 <= n -> len (range n) = n.
Proof. intros Hn. unfold range, len. rewrite length_map, length_seq. lia. Qed.

Lemma in_range (n k : Z) : In k (range n) <-> 0 <= k < n.
Proof.
  unfold range. rewrite in_map_iff. split.
  - intros (i & <- & Hi). apply in_seq in Hi. lia.
  - intros Hk. exists (Z.to_nat k). split; [lia|]. apply in_seq. lia.
Qed.

Lemma total_map_bounds {A} (f : A -> Z) (l : list A) (B : Z) :
  (forall x, In x l -> 0 <= f x <= B) -> 0 <= total (map f l) <= B * len l.
Proof.
  induction l as [|x l IH]; intros Hf; [cbn; lia|].
  rewrite len_cons. cbn [map total fold_right]. fold (total (map f l)).
  pose proof (Hf x (or_introl eq_refl)).
  assert (0 <= total (map f l) <= B * len l) by (apply IH; intros; apply Hf; now right).
  lia.
Qed.

Lemma total_flat_map_bounds {A} (f : A -> list Z) (l : list A) (B : Z) :
  (forall x, In x l -> 0 <= total (f x) <= B) ->
  0 <= total (flat_map f l) <= B * len l.
Proof.
  induction l as [|x l IH]; intros Hf; [cbn; lia|].
  rewrite len_cons. cbn [flat_map]. rewrite total_app.
  pose proof (Hf x (or_introl eq_refl)).
  assert (0 <= total (flat_map f l) <= B * len l)
    by (apply IH; intros; apply Hf; now right).
  lia.
Qed.

Lemma nth_uint8 (l : list Z) (k : nat) :
  Forall (fun x => 0 <= x < 256) l -> 0 <= nth k l 0 < 256.
Proof.
  intros Hu8. revert k. induction Hu8 as [|x xs Hx _ IH]; intros [|k]; cbn [nth];
    try lia; apply IH.
Qed.

Lemma sq_diff_bound (x y : Z) :
  0 <= x < 256 -> 0 <= y < 256 -> 0 <= (x - y) ^ 2 <= 65025.
Proof.
  intros Hx Hy. rewrite Z.pow_2_r.
  assert (Hd : -255 <= x - y <= 255) by lia.
  generalize dependent (x - y). intros d Hd.
  pose proof (Z.square_nonneg d).
  assert (0 <= (255 - d) * (255 + d)) by (apply Z.mul_nonneg_nonneg; lia).
  lia.
Qed.

Lemma broadcast_dim_pos (a b d : Z) :
  0 < a -> 0 < b -> broadcast_dim a b = Ok d -> 0 < d.
Proof.
  unfold broadcast_dim. intros Ha Hb.
  destruct (a =? b); [intros [= <-]; lia|].
  destruct (a =? 1); [intros [= <-]; lia|].
  destruct (b =? 1); [intros [= <-]; lia|discriminate].
Qed.

Lemma squared_error_bounds (img1 img2 : ndarray) (h w : Z) :
  Forall (fun x => 0 <= x < 256) (flat img1) ->
  Forall (fun x => 0 <= x < 256) (flat img2) ->
  0 <= h -> 0 <= w ->
  0 <= squared_error img1 img2 h w <= 65025 * (h * w * 3).
Proof.
  intros H1 H2 Hh Hw. unfold squared_error.
  assert (Hinner : forall i j,
            0 <= total (map (fun c => (stretched img1 i j c - stretched img2 i j c) ^ 2)
                            (range 3)) <= 65025 * 3).
  { intros i j. change (65025 * 3) with (65025 * len (range 3)).
    apply total_map_bounds. intros c _. unfold stretched, sample.
    pose proof (nth_uint8 (flat img1)
      (Z.to_nat (((if height img1 =? 1 then 0 else i) * width img1 +
                  (if width img1 =? 1 then 0 else j)) * 3 + c)) H1).
    pose proof (nth_uint8 (flat img2)
      (Z.to_nat (((if height img2 =? 1 then 0 else i) * width img2 +
                  (if width img2 =? 1 then 0 else j)) * 3 + c)) H2).
    now apply sq_diff_bound. }
  assert (Hmid : forall i,
            0 <= total (flat_map (fun j =>
                   map (fun c => (stretched img1 i j c - stretched img2 i j c) ^ 2)
                       (range 3)) (range w)) <= 65025 * 3 * w).
  { intros i.
    replace (65025 * 3 * w) with (65025 * 3 * len (range w))
      by (now rewrite len_range).
    apply total_flat_map_bounds. intros j _. apply Hinner. }
  replace (65025 * (h * w * 3)) with (65025 * 3 * w * len (range h))
    by (rewrite len_range by lia; ring).
  apply total_flat_map_bounds. intros i _. apply Hmid.
Qed.

(** X12.  On two loaded images whose shapes numpy can combine,
    [calculate_psnr] returns infinity or a finite value that is not
    negative: the mean is taken over at least one sample, is positive in
    the finite case, and is at most [255^2]; it is never [nan]. *)
Theorem psnr_value_range (img1 img2 : ndarray) (v : psnr_value)
  (Hrgb1 : rgb_array img1)
  (Hrgb2 : rgb_array img2)
  (Hval : calculate_psnr img1 img2 = Ok v) :
  v = PSNR_inf \/
  exists sse n, v = PSNR_dB sse n /\ 0 < n /\ 0 < sse <= 65025 * n.
Proof.
  unfold calculate_psnr in Hval.
  destruct (broadcast_dim (height img1) (height img2)) as [h|e] eqn:Eh;
    [|discriminate Hval].
  destruct (broadcast_dim (width img1) (width img2)) as [w|e] eqn:Ew;
    [|discriminate Hval].
  cbn [bind] in Hval.
  assert (Hh : 0 < h).
  { apply (broadcast_dim_pos _ _ h (height_pos _ Hrgb1) (height_pos _ Hrgb2) Eh). }
  assert (Hw : 0 < w).
  { apply (broadcast_dim_pos _ _ w (width_pos _ Hrgb1) (width_pos _ Hrgb2) Ew). }
  pose proof (squared_error_bounds img1 img2 h w
                (flat_uint8 _ Hrgb1) (flat_uint8 _ Hrgb2)) as Hb.
  destruct (Z.eqb_spec (h * w * 3) 0) as [Hz|Hnz]; [nia|].
  destruct (Z.eqb_spec (squared_error img1 img2 h w) 0) as [Hs|Hs].
  - left. congruence.
  - right. exists (squared_error img1 img2 h w), (h * w * 3).
    split; [congruence|]. split; [nia|lia].
Qed.

Lemma psnr_value_range_witness :
  calculate_psnr picture_4x4 black_4x4 = Ok (PSNR_dB (65025 * 48) 48) /\
  (PSNR_dB (65025 * 48) 48 = PSNR_inf \/
   exists sse n, PSNR_dB (65025 * 48) 48 = PSNR_dB sse n /\
                 0 < n /\ 0 < sse <= 65025 * n).
Proof.
  split; [reflexivity|].
  apply (psnr_value_range picture_4x4 black_4x4).
  - apply blank_rgb_array; unfold MAX_IMAGE_PIXELS; lia.
  - apply blank_rgb_array; unfold MAX_IMAGE_PIXELS; lia.
  - reflexivity.
Defined.

(* ===================================================================== *)
(** ** The squared error over the flattened arrays *)
(* ===================================================================== *)

Lemma seq_offset (x s n : nat) :
  map Z.of_nat (seq (s + x) n) =
  map (fun k => Z.of_nat x + k) (map Z.of_nat (seq s n)).
Proof.
  revert s. induction n as [|n IH]; intros s; [reflexivity|].
  cbn [seq map]. f_equal; [lia|]. apply (IH (S s)).
Qed.

Lemma range_app (a b : Z) : 0 <= a -> 0 <= b ->
  range (a + b) = range a ++ map (fun k => a + k) (range b).
Proof.
  intros Ha Hb. unfold range.
  rewrite Z2Nat.inj_add, seq_app, map_app by lia. f_equal.
  rewrite (seq_offset (Z.to_nat a) 0 (Z.to_nat b)).
  apply map_ext. intros k. lia.
Qed.

Lemma range_blocks (g : Z -> Z) (h m : Z) : 0 <= h -> 0 <= m ->
  flat_map (fun i => map (fun k => g (i * m + k)) (range m)) (range h) =
  map g (range (h * m)).
Proof.
  intros Hh Hm. revert h Hh. apply natlike_ind; [reflexivity|].
  intros h Hh IH.
  replace (Z.succ h) with (h + 1) by lia.
  rewrite (range_app h 1), flat_map_app, IH by lia.
  replace ((h + 1) * m) with (h * m + m) by ring.
  rewrite (range_app (h * m) m), map_app, map_map by nia.
  f_equal. change (range 1) with [0]. cbn [map flat_map].
  rewrite app_nil_r. apply map_ext. intros k. f_equal. lia.
Qed.

Lemma flat_map_ext_in {A B} (f g : A -> list B) (l : list A) :
  (forall x, In x l -> f x = g x) -> flat_map f l = flat_map g l.
Proof.
  induction l as [|x l IH]; intros Hfg; [reflexivity|].
  cbn [flat_map]. rewrite (Hfg x (or_introl eq_refl)), IH; [reflexivity|].
  intros y Hy. apply Hfg. now right.
Qed.

Lemma stretched_in_range (a : ndarray) (i j c : Z) :
  0 <= i < height a -> 0 <= j < width a ->
  stretched a i j c = sample a i j c.
Proof.
  intros Hi Hj. unfold stretched.
  destruct (Z.eqb_spec (height a) 1); destruct (Z.eqb_spec (width a) 1);
    repeat f_equal; lia.
Qed.

(** For two arrays of one shape the nested sum runs through the flattened
    arrays place by place. *)
Lemma squared_error_flat (img1 img2 : ndarray) :
  0 <= height img1 -> 0 <= width img1 ->
  height img2 = height img1 -> width img2 = width img1 ->
  squared_error img1 img2 (height img1) (width img1) =
  total (squared_diffs (flat img1) (flat img2) (height img1 * width img1 * 3)).
Proof.
  intros Hh Hw Eh Ew. unfold squared_error, squared_diffs.
  set (G := fun k => (nth (Z.to_nat k) (flat img1) 0 -
                      nth (Z.to_nat k) (flat img2) 0) ^ 2).
  replace (height img1 * width img1 * 3) with (height img1 * (width img1 * 3)) by ring.
  rewrite <- (range_blocks G (height img1) (width img1 * 3)) by lia.
  f_equal. apply flat_map_ext_in. intros i Hi. apply in_range in Hi.
  rewrite <- (range_blocks (fun k => G (i * (width img1 * 3) + k)) (width img1) 3)
    by lia.
  apply flat_map_ext_in. intros j Hj. apply in_range in Hj.
  apply map_ext. intros c.
  rewrite !stretched_in_range by lia. unfold sample, G. rewrite Ew.
  replace (i * (width img1 * 3) + (j * 3 + c)) with ((i * width img1 + j) * 3 + c)
    by ring.
  reflexivity.
Qed.

Lemma total_zero_all (l : list Z) :
  (forall x, In x l -> 0 <= x) -> total l = 0 -> forall x, In x l -> x = 0.
Proof.
  induction l as [|y l IH]; intros Hnn Hz x Hx; [contradiction|].
  cbn [total fold_right] in Hz. fold (total l) in Hz.
  assert (Hy : 0 <= y) by (apply Hnn; now left).
  assert (Hl : 0 <= total l).
  { clear - Hnn. induction l as [|z l IH]; [cbn; lia|].
    cbn [total fold_right]. fold (total l).
    assert (0 <= z) by (apply Hnn; right; now left).
    assert (0 <= total l) by (apply IH; intros w [Hw|Hw]; apply Hnn; [now left|right; now right]).
    lia. }
  destruct Hx as [<-|Hx]; [lia|].
  apply IH; [intros; apply Hnn; now right|lia|exact Hx].
Qed.

(** X13.  For two loaded images of the same height and width,
    [calculate_psnr] returns infinity exactly when the two arrays are
    equal sample for sample. *)
Theorem psnr_inf_iff_equal (img1 img2 : ndarray)
  (Hrgb1 : rgb_array img1)
  (Hrgb2 : rgb_array img2)
  (Eh : height img2 = height img1)
  (Ew : width img2 = width img1) :
  calculate_psnr img1 img2 = Ok PSNR_inf <-> flat img1 = flat img2.
Proof.
  pose proof (height_pos _ Hrgb1) as Hh. pose proof (width_pos _ Hrgb1) as Hw.
  pose proof (flat_shape _ Hrgb1) as L1. pose proof (flat_shape _ Hrgb2) as L2.
  rewrite Eh, Ew in L2.
  unfold calculate_psnr. rewrite Eh, Ew, !broadcast_dim_same. cbn [bind].
  destruct (Z.eqb_spec (height img1 * width img1 * 3) 0) as [Hz|_]; [nia|].
  rewrite (squared_error_flat img1 img2) by (assumption || lia).
  set (n := height img1 * width img1 * 3) in *.
  split.
  - destruct (Z.eqb_spec (total (squared_diffs (flat img1) (flat img2) n)) 0)
      as [Hs|_]; [intros _|discriminate].
    apply (nth_ext _ _ 0 0); [unfold len in L1, L2; lia|].
    intros k Hk.
    assert (Hin : In ((nth k (flat img1) 0 - nth k (flat img2) 0) ^ 2)
                     (squared_diffs (flat img1) (flat img2) n)).
    { unfold squared_diffs. apply in_map_iff. exists (Z.of_nat k).
      rewrite Nat2Z.id. split; [reflexivity|]. apply in_range.
      unfold len in L1. lia. }
    apply (total_zero_all _) in Hin; [|
      intros x Hx; unfold squared_diffs in Hx; apply in_map_iff in Hx;
      destruct Hx as (j & <- & _); apply Z.pow_even_nonneg; now exists 1|exact Hs].
    rewrite Z.pow_2_r in Hin. nia.
  - intros Heq. unfold squared_diffs. rewrite Heq.
    rewrite total_map_zero; [reflexivity|]. intros k. now rewrite Z.sub_diag.
Qed.

Lemma psnr_inf_iff_equal_witness :
  calculate_psnr picture_4x4 (mk_ndarray 4 4 (repeat 255 48)) = Ok PSNR_inf <->
  flat picture_4x4 = flat (mk_ndarray 4 4 (repeat 255 48)).
Proof.
  apply (psnr_inf_iff_equal picture_4x4 (mk_ndarray 4 4 (repeat 255 48)));
    try reflexivity;
    apply (blank_rgb_array 4 4 255); unfold MAX_IMAGE_PIXELS; lia.
Defined.

Lemma total_map_zero_in {A} (f : A -> Z) (l : list A) :
  (forall x, In x l -> f x = 0) -> total (map f l) = 0.
Proof.
  induction l as [|x l IH]; intros Hf; [reflexivity|].
  cbn [map total fold_right]. fold (total (map f l)).
  rewrite (Hf x (or_introl eq_refl)), IH; [reflexivity|].
  intros y Hy. apply Hf. now right.
Qed.

Lemma stamp_nth (flat_array bit_list : list Z) (k : nat) :
  Forall (fun x => 0 <= x < 256) flat_array ->
  Forall (fun b => b = 0 \/ b = 1) bit_list ->
  (nth k flat_array 0 - nth k (stamp flat_array bit_list) 0) ^ 2 <= 1 /\
  ((length bit_list <= k)%nat ->
   nth k (stamp flat_array bit_list) 0 = nth k flat_array 0).
Proof.
  intros Hu8. revert bit_list k.
  induction Hu8 as [|x xs Hx _ IH]; intros bit_list k Hbits.
  - destruct bit_list; destruct k; cbn; split; intros; reflexivity || lia.
  - destruct Hbits as [|b bs Hb Hbs].
    + cbn [stamp]. rewrite Z.sub_diag. split; [cbn; lia|reflexivity].
    + cbn [stamp]. destruct k as [|k]; cbn [nth length].
      * split; [|lia].
        exact (proj2 (high7_close x _ (stamped_high7 x b Hx Hb) Hx)).
      * destruct (IH bs k Hbs) as [H1 H2]. split; [exact H1|].
        intros Hk. apply H2. lia.
Qed.

(** X14.  The cost of an embedding: against the original image the saved
    image has a squared error of at most one per stamped sample, that is
    at most [32 + len(text_bits)], which is at most the number of
    samples; so [calculate_psnr] returns infinity or a value whose mean
    squared error is at most 1. *)
Theorem psnr_of_embedding (img stego : ndarray) (m : str) (text_bits : bitstr)
  (Hrgb : rgb_array img)
  (Hbits : text_to_bits m = Ok text_bits)
  (Hemb : embed img m = Ok stego) :
  calculate_psnr img stego = Ok PSNR_inf \/
  exists sse,
    calculate_psnr img stego = Ok (PSNR_dB sse (capacity img)) /\
    0 < sse <= 32 + len text_bits /\ 32 + len text_bits <= capacity img.
Proof.
  destruct (rgb_array_capacity img Hrgb) as [Hshape _].
  destruct (embed_inv img stego m Hrgb Hemb) as (tb & Htb & Hhdr & Hfit & ->).
  rewrite Hbits in Htb. apply Ok_inj in Htb as <-.
  pose proof (height_pos _ Hrgb) as Hh. pose proof (width_pos _ Hrgb) as Hw.
  set (bl := map Z.b2z (full_bits_of text_bits)).
  set (stego := mk_ndarray (height img) (width img) (stamp (flat img) bl)).
  assert (HK : len bl = 32 + len text_bits).
  { subst bl. rewrite len_map. unfold full_bits_of. rewrite len_app. lia. }
  assert (Hsse : 0 <= squared_error img stego (height img) (width img)
                   <= 32 + len text_bits).
  { rewrite (squared_error_flat img stego) by (reflexivity || lia).
    cbn [flat stego]. unfold squared_diffs.
    replace (height img * width img * 3) with (len bl + (capacity img - len bl))
      by (unfold capacity; lia).
    pose proof (len_nonneg bl) as Hbl.
    rewrite range_app, map_app, total_app, map_map by lia.
    assert (H1 : 0 <= total (map (fun k => (nth (Z.to_nat k) (flat img) 0 -
                     nth (Z.to_nat k) (stamp (flat img) bl) 0) ^ 2) (range (len bl)))
                 <= 1 * len (range (len bl))).
    { apply total_map_bounds. intros k _. split.
      - apply Z.pow_even_nonneg. now exists 1.
      - apply stamp_nth; [apply (flat_uint8 _ Hrgb)|apply b2z_bits]. }
    rewrite len_range in H1 by lia.
    rewrite (total_map_zero_in _ (range (capacity img - len bl))); [lia|].
    intros k Hk. apply in_range in Hk.
    destruct (stamp_nth (flat img) bl (Z.to_nat (len bl + k))
                (flat_uint8 _ Hrgb) (b2z_bits _)) as [_ Heq].
    rewrite Heq by (unfold len; lia). now rewrite Z.sub_diag. }
  unfold calculate_psnr. cbn [height width stego]. rewrite !broadcast_dim_same.
  cbn [bind]. fold stego.
  destruct (Z.eqb_spec (height img * width img * 3) 0) as [Hz|_]; [nia|].
  destruct (Z.eqb_spec (squared_error img stego (height img) (width img)) 0)
    as [Hs|Hs]; [now left|right].
  exists (squared_error img stego (height img) (width img)).
  split; [|lia]. do 2 f_equal. unfold capacity. ring.
Qed.

Lemma psnr_of_embedding_witness :
  exists stego,
    embed picture_10x10 hello = Ok stego /\
    (calculate_psnr picture_10x10 stego = Ok PSNR_inf \/
     exists sse,
       calculate_psnr picture_10x10 stego = Ok (PSNR_dB sse (capacity picture_10x10)) /\
       0 < sse <= 32 + len (false :: bin 0x68656C6C6F) /\
       32 + len (false :: bin 0x68656C6C6F) <= capacity picture_10x10).
Proof.
  destruct (embed picture_10x10 hello) as [stego|e] eqn:Hemb;
    [|vm_compute in Hemb; discriminate Hemb].
  exists stego. split; [reflexivity|].
  apply (psnr_of_embedding picture_10x10 stego hello);
    [apply blank_rgb_array; unfold MAX_IMAGE_PIXELS; lia|reflexivity|exact Hemb].
Defined.

(* ===================================================================== *)
(** ** The saved path *)
(* ===================================================================== *)

Lemma endswith_app (s suffix : str) : endswith (s ++ suffix) suffix = true.
Proof.
  unfold endswith. rewrite length_app.
  replace (length s + length suffix - length suffix)%nat with (length s) by lia.
  rewrite skipn_exact by reflexivity.
  destruct (list_eq_dec Z.eq_dec suffix suffix); [|congruence].
  rewrite andb_true_r. apply Nat.leb_le. lia.
Qed.

Lemma lower_app (s t : str) : lower (s ++ t) = lower s ++ lower t.
Proof. apply map_app. Qed.

(** X15.  The path [encode] saves to always ends in [".png"] up to letter
    case; a path that already does is kept as it is, any other path gets
    [".png"] appended; applying the rule to its own result changes
    nothing. *)
Theorem saved_path_is_png (output_path : str) :
  endswith (lower (saved_path output_path)) PNG = true /\
  (saved_path output_path = output_path <->
   endswith (lower output_path) PNG = true) /\
  (endswith (lower output_path) PNG = false ->
   saved_path output_path = output_path ++ PNG) /\
  saved_path (saved_path output_path) = saved_path output_path.
Proof.
  assert (Hpng : endswith (lower (output_path ++ PNG)) PNG = true).
  { rewrite lower_app. apply endswith_app. }
  destruct (endswith (lower output_path) PNG) eqn:E.
  - assert (Hs : saved_path output_path = output_path).
    { unfold saved_path. now rewrite E. }
    rewrite !Hs. repeat split; auto; discriminate.
  - assert (Hs : saved_path output_path = output_path ++ PNG).
    { unfold saved_path. now rewrite E. }
    split; [rewrite Hs; exact Hpng|]. split; [split; [|discriminate]|].
    + intros Heq. rewrite Hs in Heq. apply (f_equal (@length Z)) in Heq.
      rewrite length_app in Heq. cbn in Heq. lia.
    + split; [intros _; exact Hs|]. rewrite Hs. unfold saved_path.
      now rewrite Hpng.
Qed.
